(** * translation-workspace: the split / merge pipeline of the SDLXLIFF tools

    A shallow embedding of [tools/split_sdlxliff.py] and
    [tools/merge_translations.py], and the properties of extraction,
    partitioning, result loading and merging proved over it.

    Conventions of the embedding:
    - a Python [int] is a [Z]; [//] and [%] are [Z.div] and [Z.modulo]
      (both floor, like Python's);
    - a Python [str] is a [string]; a character stands for a code point
      below 256;
    - a raised exception is the [Err] case of [result];
    - a [for] loop that appends to a list or writes to a dict is a left
      fold whose step is the loop's body;
    - a parsed XML document is the tree of [ET.Element] that [ET.parse]
      builds, a parsed JSON file the value that [json.load] returns. *)

From Stdlib Require Import ZArith Lia Ascii.
From stdpp Require Import base list strings gmap sorting pretty.

Local Open Scope Z_scope.
Set Warnings "-register-all".

(** * Part I: the programs *)

(** ** Exceptions *)

Inductive exn : Set :=
  | ZeroDivisionError
  | JSONDecodeError
  | TypeError
  | KeyError.

Inductive result (A : Type) : Type :=
  | Ok (a : A)
  | Err (e : exn).
Arguments Ok {A} a.
Arguments Err {A} e.

(** Sequencing, written [x ← r; k]: the first exception raised ends the
    computation. *)
Global Instance result_bind : MBind result := λ A B k r,
  match r with
  | Ok a => k a
  | Err e => Err e
  end.

(** A loop whose body may raise: the state is threaded through the items
    until one raises. *)
Fixpoint foldM {A B} (f : A → B → result A) (a : A) (l : list B)
    : result A :=
  match l with
  | [] => Ok a
  | x :: l => a' ← f a x; foldM f a' l
  end.

(** ** Python built-ins *)

Module Py.

(** [range(n)]. *)
Definition range (n : Z) : list Z := Z.of_nat <$> seq 0 (Z.to_nat n).

(** An index of a slice, brought into [0 .. len]. *)
Definition clamp (len i : Z) : Z :=
  if i <? 0 then Z.max (i + len) 0 else Z.min i len.

(** [l[lo:hi]]. *)
Definition slice {A} (l : list A) (lo hi : Z) : list A :=
  let len := Z.of_nat (length l) in
  let lo' := clamp len lo in
  let hi' := clamp len hi in
  take (Z.to_nat (hi' - lo')) (drop (Z.to_nat lo') l).

(** Truth value of a [str] and of a [list]: non-empty. *)
Definition truthy (s : string) : bool :=
  match s with
  | EmptyString => false
  | String _ _ => true
  end.

Definition truthy_list {A} (l : list A) : bool :=
  match l with
  | [] => false
  | _ :: _ => true
  end.

(** [c.isspace()] on the code points below 256: TAB, LF, VT, FF, CR,
    FS, GS, RS, US, SPACE, NEL and NBSP. *)
Definition isspace (c : ascii) : bool :=
  let n := N_of_ascii c in
  ((9 <=? n) && (n <=? 13) || (28 <=? n) && (n <=? 32)
   || (n =? 133) || (n =? 160))%N.

Fixpoint lstrip (s : string) : string :=
  match s with
  | EmptyString => EmptyString
  | String c s' => if isspace c then lstrip s' else s
  end.

Definition rstrip (s : string) : string :=
  String.rev (lstrip (String.rev s)).

(** [s.strip()]. *)
Definition strip (s : string) : string := rstrip (lstrip s).

(** [''.join(parts)]. *)
Definition join (parts : list string) : string := String.concat "" parts.

(** [s.startswith(p)] and [s.endswith(p)]. *)
Definition startswith (s p : string) : bool := String.prefix p s.
Definition endswith (s p : string) : bool :=
  String.prefix (String.rev p) (String.rev s).

(** [sub in s] on strings. *)
Definition contains_str (sub s : string) : bool :=
  match String.index 0 sub s with
  | Some _ => true
  | None => false
  end.

End Py.

(** ** xml.etree.ElementTree *)

Module ET.

(** An element: its tag (a namespaced one is written [{uri}local]), its
    attributes, the text before its first child, the text after its end
    tag, and its children. *)
Inductive Element : Type :=
  mkElement {
    tag : string;
    attrib : gmap string string;
    text : option string;
    tail : option string;
    children : list Element
  }.

(** [e.get(key, dflt)]. *)
Definition get (e : Element) (key dflt : string) : string :=
  default dflt (attrib e !! key).

(** [e.find(t)] for a path that is one tag: the first child with that
    tag. [find_index] is its position among the children, which stands
    for the reference the program keeps to that child. *)
Definition find_index (e : Element) (t : string) : option nat :=
  fst <$> list_find (λ c, tag c = t) (children e).

Definition find (e : Element) (t : string) : option Element :=
  snd <$> list_find (λ c, tag c = t) (children e).

(** [list(e.iter(t))] on a tree that is not written to meanwhile: the
    elements tagged [t], [e] included, in document order. *)
Fixpoint iter (t : string) (e : Element) : list Element :=
  (if decide (tag e = t) then [e] else [])
  ++ (children e ≫= iter t).

(** The strings [e.itertext()] yields: the non-empty text of [e], then for
    each child its own yield and its non-empty tail. *)
Definition nonempty (o : option string) : list string :=
  match o with
  | Some s => if Py.truthy s then [s] else []
  | None => []
  end.

Fixpoint itertext (e : Element) : list string :=
  nonempty (text e)
  ++ (children e ≫= λ c, itertext c ++ nonempty (tail c)).

(** [e.text = t]. *)
Definition set_text (e : Element) (t : option string) : Element :=
  mkElement (tag e) (attrib e) t (tail e) (children e).

Definition set_children (e : Element) (cs : list Element) : Element :=
  mkElement (tag e) (attrib e) (text e) (tail e) cs.

(** [SubElement(parent, t)]: a new element with no attribute, text, tail
    or child, appended to [parent]; the position of the new child stands
    for the reference returned. *)
Definition SubElement (parent : Element) (t : string) : Element * nat :=
  (set_children parent (children parent ++ [mkElement t ∅ None None []]),
   length (children parent)).

(** [parent[i].text = t]. *)
Definition set_child_text (parent : Element) (i : nat) (t : option string)
    : Element :=
  set_children parent (alter (λ c, set_text c t) i (children parent)).

(** The number of levels of a tree. *)
Fixpoint depth (e : Element) : nat :=
  S (foldr (λ c d, Nat.max (depth c) d) 0%nat (children e)).

End ET.

Abbreviation Element := ET.Element.

(** The tags of the two dialects. *)
Definition XLIFF_TRANS_UNIT : string :=
  "{urn:oasis:names:tc:xliff:document:1.2}trans-unit".
Definition XLIFF_SOURCE : string :=
  "{urn:oasis:names:tc:xliff:document:1.2}source".
Definition XLIFF_TARGET : string :=
  "{urn:oasis:names:tc:xliff:document:1.2}target".
Definition PLAIN_TRANS_UNIT : string := "trans-unit".
Definition PLAIN_SOURCE : string := "source".

(** ** split_sdlxliff.py: [extract_segments] *)

(** An extracted segment, the dict [{'id': ..., 'source': ...}]. *)
Record Segment : Type := mkSegment { seg_id : string; seg_source : string }.

Global Instance Segment_eq_dec : EqDecision Segment.
Proof. solve_decision. Defined.

(** [''.join(e.itertext()).strip()]. *)
Definition stripped_text (e : Element) : string :=
  Py.strip (Py.join (ET.itertext e)).

(** The body of the loop over the namespaced [trans-unit] elements. *)
Definition primary_step (extract_all : bool) (segments : list Segment)
    (tu : Element) : list Segment :=
  let tu_id := ET.get tu "id" "" in
  let source_elem := ET.find tu XLIFF_SOURCE in
  let target_elem := ET.find tu XLIFF_TARGET in
  match source_elem with
  | Some source_elem =>
      let source_text := stripped_text source_elem in
      let target_text :=
        match target_elem with
        | Some target_elem => stripped_text target_elem
        | None => ""
        end in
      if Py.truthy source_text
         && (extract_all || negb (Py.truthy target_text))
      then segments ++ [mkSegment tu_id source_text]
      else segments
  | None => segments
  end.

(** The body of the loop over the [trans-unit] elements without
    namespace. *)
Definition fallback_step (segments : list Segment) (tu : Element)
    : list Segment :=
  let tu_id := ET.get tu "id" "" in
  let source_elem := ET.find tu PLAIN_SOURCE in
  match source_elem with
  | Some source_elem =>
      let source_text := stripped_text source_elem in
      if Py.truthy source_text
      then segments ++ [mkSegment tu_id source_text]
      else segments
  | None => segments
  end.

(** The first loop. *)
Definition primary_pass (root : Element) (extract_all : bool)
    : list Segment :=
  foldl (primary_step extract_all) [] (ET.iter XLIFF_TRANS_UNIT root).

(** The test [if not segments] that guards the second loop. *)
Definition fallback_runs (root : Element) (extract_all : bool) : bool :=
  negb (Py.truthy_list (primary_pass root extract_all)).

(** [extract_segments], on the root of the parsed document. *)
Definition extract_segments (root : Element) (extract_all : bool)
    : list Segment :=
  let segments := primary_pass root extract_all in
  if negb (Py.truthy_list segments)
  then foldl fallback_step segments (ET.iter PLAIN_TRANS_UNIT root)
  else segments.

(** ** split_sdlxliff.py: [split_into_batches] *)

Section Split.
Context {A : Type}.

(** One turn of the loop over [range(num_batches)]; the state is
    [(batches, idx)]. *)
Definition batch_step (segments : list A) (base_size remainder : Z)
    (st : list (list A) * Z) (i : Z) : list (list A) * Z :=
  let '(batches, idx) := st in
  let size := base_size + (if i <? remainder then 1 else 0) in
  (batches ++ [Py.slice segments idx (idx + size)], idx + size).

Definition split_into_batches (segments : list A) (batch_size : Z)
    : result (list (list A)) :=
  let total := Z.of_nat (length segments) in
  if total =? 0 then Ok []
  else if batch_size =? 0 then Err ZeroDivisionError
  else
    let num_batches := Z.max 1 (- ((- total) / batch_size)) in
    let base_size := total / num_batches in
    let remainder := total mod num_batches in
    Ok (foldl (batch_step segments base_size remainder) ([], 0)
          (Py.range num_batches)).1.

End Split.

(** ** json *)

(** The value [json.load] returns. A number is an [int] (the literals
    without fraction or exponent); [JObj] holds the items of the [dict] in
    insertion order, under pairwise distinct names. *)
Inductive json : Type :=
  | JNull
  | JBool (b : bool)
  | JInt (n : Z)
  | JStr (s : string)
  | JArr (items : list json)
  | JObj (members : list (string * json)).

(** The content of a file as [json.load] finds it. *)
Inductive file_content : Type :=
  | Unparsable
  | Parsed (data : json).

Definition json_load (f : file_content) : result json :=
  match f with
  | Unparsable => Err JSONDecodeError
  | Parsed data => Ok data
  end.

(** A key of the [translations] dict: a hashable JSON value. [True] and
    [1] (and [False] and [0]) are one key, as in Python. *)
Inductive pykey : Type :=
  | KNone
  | KInt (n : Z)
  | KStr (s : string).

Global Instance pykey_eq_dec : EqDecision pykey.
Proof. solve_decision. Defined.

Global Instance pykey_countable : Countable pykey.
Proof.
  refine (inj_countable'
    (λ k, match k with
          | KNone => inl ()
          | KInt n => inr (inl n)
          | KStr s => inr (inr s)
          end)
    (λ x, match x with
          | inl _ => KNone
          | inr (inl n) => KInt n
          | inr (inr s) => KStr s
          end) _).
  intros []; reflexivity.
Defined.

(** [hash(j)] succeeds: the key [j] is under; a list or a dict is
    unhashable. *)
Definition to_key (j : json) : result pykey :=
  match j with
  | JNull => Ok KNone
  | JBool b => Ok (KInt (if b then 1 else 0))
  | JInt n => Ok (KInt n)
  | JStr s => Ok (KStr s)
  | JArr _ | JObj _ => Err TypeError
  end.

Definition is_str (key : string) (j : json) : bool :=
  match j with
  | JStr s => bool_decide (s = key)
  | _ => false
  end.

Definition obj_lookup (key : string) (members : list (string * json))
    : option json :=
  snd <$> List.find (λ m, bool_decide (m.1 = key)) members.

(** [key in j] for a string [key]. *)
Definition py_contains (key : string) (j : json) : result bool :=
  match j with
  | JObj members => Ok (bool_decide (is_Some (obj_lookup key members)))
  | JArr items => Ok (existsb (is_str key) items)
  | JStr s => Ok (Py.contains_str key s)
  | JNull | JBool _ | JInt _ => Err TypeError
  end.

(** [j[key]] for a string [key]. *)
Definition py_getitem (j : json) (key : string) : result json :=
  match j with
  | JObj members =>
      match obj_lookup key members with
      | Some v => Ok v
      | None => Err KeyError
      end
  | _ => Err TypeError
  end.

Fixpoint chars (s : string) : list string :=
  match s with
  | EmptyString => []
  | String c s' => String c EmptyString :: chars s'
  end.

(** The items [for item in j] goes through. *)
Definition py_iter (j : json) : result (list json) :=
  match j with
  | JArr items => Ok items
  | JObj members => Ok (JStr <$> members.*1)
  | JStr s => Ok (JStr <$> chars s)
  | JNull | JBool _ | JInt _ => Err TypeError
  end.

(** ** merge_translations.py: [load_all_translations] *)

(** The files of [output_dir], by name. *)
Abbreviation directory := (gmap string file_content).

(** [fnmatch(name, 'batch_*.json')] (POSIX: case matters). *)
Definition is_batch_file (name : string) : bool :=
  Py.startswith name "batch_"
  && Py.endswith (String.substring 6 (String.length name - 6) name) ".json".

(** [sorted(glob.glob(pattern))], as file names: the directory part of
    every path is the same. *)
Definition result_files (dir : directory) : list string :=
  merge_sort String.le (filter (λ name, is_batch_file name) (elements (dom dir))).

(** The body of the loop over [data['translations']]. *)
Definition load_item (translations : gmap pykey json) (item : json)
    : result (gmap pykey json) :=
  has_id ← py_contains "id" item;
  if has_id : bool then
    has_target ← py_contains "target" item;
    if has_target : bool then
      v ← py_getitem item "target";
      i ← py_getitem item "id";
      k ← to_key i;
      Ok (<[k := v]> translations)
    else Ok translations
  else Ok translations.

(** The body of the loop over the files, on what the file holds. *)
Definition load_file (translations : gmap pykey json) (f : file_content)
    : result (gmap pykey json) :=
  data ← json_load f;
  has ← py_contains "translations" data;
  if has : bool then
    ts ← py_getitem data "translations";
    items ← py_iter ts;
    foldM load_item translations items
  else Ok translations.

Definition load_all_translations (dir : directory)
    : result (gmap pykey json) :=
  foldM (λ translations filepath,
           load_file translations (default Unparsable (dir !! filepath)))
        ∅ (result_files dir).

(** ** merge_translations.py: [merge_into_sdlxliff] *)

(** The body of the loop, on the unit [tu] the generator has just yielded;
    [translations] is the caller's dict of target strings by id. The
    result is [tu] after the writes, and the two counters. *)
Definition merge_unit (translations : gmap string string) (tu : Element)
    (counts : Z * Z) : Element * (Z * Z) :=
  let '(merged_count, missing_count) := counts in
  let tu_id := ET.get tu "id" "" in
  match translations !! tu_id with
  | Some v =>
      let '(tu, target_elem) :=
        match ET.find_index tu XLIFF_TARGET with
        | Some i => (tu, i)
        | None => ET.SubElement tu XLIFF_TARGET
        end in
      (ET.set_child_text tu target_elem (Some v),
       (merged_count + 1, missing_count))
  | None =>
      match ET.find tu XLIFF_SOURCE with
      | Some source_elem =>
          let source_text := stripped_text source_elem in
          if Py.truthy source_text
          then (tu, (merged_count, missing_count + 1))
          else (tu, (merged_count, missing_count))
      | None => (tu, (merged_count, missing_count))
      end
  end.

(** A loop over the children of an element, each call returning the child
    as it leaves it. *)
Fixpoint walk_children (f : Element → Z * Z → option (Element * (Z * Z)))
    (cs : list Element) (counts : Z * Z)
    : option (list Element * (Z * Z)) :=
  match cs with
  | [] => Some ([], counts)
  | c :: cs =>
      '(c', counts) ← f c counts;
      '(cs', counts) ← walk_children f cs counts;
      Some (c' :: cs', counts)
  end.

(** The loop [for tu in root.iter(trans-unit)] with its body. [iter] is a
    generator: it yields an element, the body runs and writes to it, and
    only then does the generator go through the children the element has
    by then. [fuel] bounds the depth the walk may reach; [None] is a walk
    that ran out of it. *)
Fixpoint merge_walk (fuel : nat) (translations : gmap string string)
    (e : Element) (counts : Z * Z) : option (Element * (Z * Z)) :=
  match fuel with
  | O => None
  | S fuel =>
      let '(e, counts) :=
        if decide (ET.tag e = XLIFF_TRANS_UNIT)
        then merge_unit translations e counts
        else (e, counts) in
      '(cs, counts) ← walk_children (merge_walk fuel translations)
                        (ET.children e) counts;
      Some (ET.set_children e cs, counts)
  end.

(** [merge_into_sdlxliff], on the root of the parsed document: the tree
    that [tree.write] then serialises, and [(merged_count,
    missing_count)]. *)
Definition merge_into_sdlxliff (root : Element)
    (translations : gmap string string) : option (Element * (Z * Z)) :=
  merge_walk (S (ET.depth root)) translations root (0, 0).

(** ** split_sdlxliff.py: [save_batches] and [main] *)

(** The manifest, the dict [save_batches] returns. *)
Record Manifest : Type := mkManifest {
  project : string;
  total_segments : Z;
  total_batches : Z;
  batch_files : list string
}.

(** [sum(l)] and [enumerate(l)]. *)
Definition py_sum (l : list Z) : Z := foldl Z.add 0 l.

Definition enumerate {A} (l : list A) : list (nat * A) :=
  zip (seq 0 (length l)) l.

Fixpoint zeros (k : nat) : string :=
  match k with
  | O => EmptyString
  | S k => String "0" (zeros k)
  end.

(** [f"{n:03d}"] for [n ≥ 0]: the decimal digits of [n], with zeros in
    front up to three characters. *)
Definition format_03d (n : nat) : string :=
  let digits := pretty n in
  zeros (3 - String.length digits) +:+ digits.

(** [f"batch_{i+1:03d}.json"]. *)
Definition batch_filename (i : nat) : string :=
  "batch_" +:+ format_03d (i + 1) +:+ ".json".

Definition segment_json (seg : Segment) : json :=
  JObj [("id", JStr (seg_id seg)); ("source", JStr (seg_source seg))].

(** The dict [batch_data] of batch [i] (counted from 0) out of
    [n_batches]. *)
Definition batch_data (n_batches i : nat) (batch : list Segment) : json :=
  JObj [("batch_number", JInt (Z.of_nat i + 1));
        ("total_batches", JInt (Z.of_nat n_batches));
        ("segment_count", JInt (Z.of_nat (length batch)));
        ("segments", JArr (segment_json <$> batch))].

Definition manifest_json (m : Manifest) : json :=
  JObj [("project", JStr (project m));
        ("total_segments", JInt (total_segments m));
        ("total_batches", JInt (total_batches m));
        ("batch_files", JArr (JStr <$> batch_files m))].

(** One turn of the loop over [enumerate(batches)]: the file is written
    (what the directory then holds under that name is what [json.load]
    reads back) and its name appended to [manifest['batch_files']]. *)
Definition save_step (n_batches : nat) (st : directory * list string)
    (ib : nat * list Segment) : directory * list string :=
  let '(dir, files) := st in
  let '(i, batch) := ib in
  let filename := batch_filename i in
  (<[filename := Parsed (batch_data n_batches i batch)]> dir,
   files ++ [filename]).

(** [save_batches], on the files of [output_dir]: the directory after the
    writes, and the manifest. *)
Definition save_batches (batches : list (list Segment)) (dir : directory)
    (project_name : string) : directory * Manifest :=
  let total := py_sum ((λ b, Z.of_nat (length b)) <$> batches) in
  let '(dir, files) :=
    foldl (save_step (length batches)) (dir, []) (enumerate batches) in
  let manifest :=
    mkManifest project_name total (Z.of_nat (length batches)) files in
  (<["manifest.json" := Parsed (manifest_json manifest)]> dir, manifest).

(** How [main] ends: [sys.exit(code)], or normally with the directory
    written and the manifest. *)
Inductive split_outcome : Type :=
  | SplitExit (code : Z)
  | SplitDone (dir : directory) (manifest : Manifest).

(** [main] of split_sdlxliff.py. [input] is the root of the parsed input
    file, [None] when the file does not exist; [dir] holds the files of
    the output directory. *)
Definition split_main (input : option Element) (dir : directory)
    (batch_size : Z) (project_name : string) (all : bool)
    : result split_outcome :=
  match input with
  | None => Ok (SplitExit 1)
  | Some root =>
      let segments := extract_segments root all in
      if negb (Py.truthy_list segments) then Ok (SplitExit 1)
      else
        batches ← split_into_batches segments batch_size;
        let '(dir, manifest) := save_batches batches dir project_name in
        Ok (SplitDone dir manifest)
  end.

(** ** translate_direct.py: [parse_translations] *)

Module Re.

(** The string cut at the first occurrence of a character: what comes
    before it and what comes after. *)
Fixpoint cut_at (c : ascii) (s : string) : option (string * string) :=
  match s with
  | EmptyString => None
  | String d s' =>
      if decide (d = c) then Some (EmptyString, s')
      else '(before, after) ← cut_at c s'; Some (String d before, after)
  end.

(** The last character of a string, as a string. *)
Fixpoint last_char (s : string) : string :=
  match s with
  | EmptyString => EmptyString
  | String c EmptyString => s
  | String _ s' => last_char s'
  end.

(** What the group [([^\]]+)] captures of the characters between [[ID:]
    and the first []]: [\s*] before it takes the longest run of white
    space that leaves the group a character. *)
Definition group_of (body : string) : string :=
  match Py.lstrip body with
  | EmptyString => last_char body
  | rest => rest
  end.

(** A match of [\[ID:\s*([^\]]+)\]] at the start of [s]: the group, and
    what follows the match. The group takes every character up to the
    first []], and needs one. *)
Definition id_marker (s : string) : option (string * string) :=
  match s with
  | String "[" (String "I" (String "D" (String ":" rest))) =>
      match cut_at "]" rest with
      | Some (String c body, after) =>
          Some (group_of (String c body), after)
      | _ => None
      end
  | _ => None
  end.

(** [re.split] with that pattern, from left to right: [cur] is the text
    since the last match, [skip] the number of characters of a match still
    to pass. A match ends the current text and adds it and the group. *)
Fixpoint split_go (s : string) (skip : nat) (cur : string) : list string :=
  match s with
  | EmptyString => [cur]
  | String c s' =>
      match skip with
      | S k => split_go s' k cur
      | O =>
          match id_marker s with
          | Some (group, after) =>
              cur :: group
                :: split_go s' (String.length s' - String.length after)
                     EmptyString
          | None => split_go s' 0 (cur +:+ String c EmptyString)
          end
      end
  end.

(** [re.split(r'\[ID:\s*([^\]]+)\]', content)]. *)
Definition split (content : string) : list string :=
  split_go content 0 EmptyString.

End Re.

(** A record of the reply, the dict [{'id', 'source', 'target'}]. *)
Record Translation : Type := mkTranslation {
  tr_id : string;
  tr_source : string;
  tr_target : string
}.

(** [range(start, stop, step)] for a positive [step]. *)
Definition range_step (start stop step : Z) : list Z :=
  (λ k, start + k * step) <$> Py.range ((stop - start + step - 1) / step).

(** [parts[i]], for an index the loop keeps within the list. *)
Definition part (parts : list string) (i : Z) : string :=
  default EmptyString (parts !! Z.to_nat i).

(** The body of the loop over [range(1, len(parts), 2)]. *)
Definition parse_step (parts : list string)
    (id_translation_map : gmap string string) (i : Z)
    : gmap string string :=
  let seg_id := Py.strip (part parts i) in
  let translation :=
    if i + 1 <? Z.of_nat (length parts)
    then Py.strip (part parts (i + 1))
    else EmptyString in
  <[seg_id := translation]> id_translation_map.

Definition parse_translations (content : string) (segments : list Segment)
    : list Translation :=
  let parts := Re.split content in
  let id_translation_map :=
    foldl (parse_step parts) ∅
      (range_step 1 (Z.of_nat (length parts)) 2) in
  foldl (λ translations seg,
           let target :=
             default EmptyString (id_translation_map !! seg_id seg) in
           translations ++ [mkTranslation (seg_id seg) (seg_source seg)
                              target])
    [] segments.

(** ** translate_direct.py: [translate_batch], before and after the request *)

(** The listing of the segments in the prompt: the loop
    [segments_text += f'[ID: {seg["id"]}]\n{seg["source"]}\n\n']. *)
Definition segments_text (segments : list Segment) : string :=
  foldl (λ text seg,
           text +:+ ("[ID: " +:+ seg_id seg +:+ "]"
                     +:+ String "010" (seg_source seg
                                       +:+ String "010" (String "010" ""))))
    "" segments.



(** * Part II: vocabulary of the properties, and example inputs *)

(** ** Partition *)

(** The size the loop gives to batch [i]. *)
Definition batch_size_at (base_size remainder i : Z) : Z :=
  base_size + (if i <? remainder then 1 else 0).

(** The value of [idx] after [k] turns. *)
Definition idx_after (base_size remainder : Z) (k : nat) : Z :=
  Z.of_nat k * base_size + Z.min (Z.of_nat k) remainder.

(** ** Extraction *)

(** The id the loops give a unit: its [id] attribute, or the empty string
    when it has none. *)
Definition unit_id (tu : Element) : string := ET.get tu "id" "".

(** The stripped text of the first child of [tu] tagged [t], the empty
    string when there is none. *)
Definition slot_text (t : string) (tu : Element) : string :=
  match ET.find tu t with
  | Some e => stripped_text e
  | None => ""
  end.

(** The inclusion test of the first loop, on a namespaced unit. *)
Definition primary_includes (extract_all : bool) (tu : Element) : bool :=
  match ET.find tu XLIFF_SOURCE with
  | Some source_elem =>
      Py.truthy (stripped_text source_elem)
      && (extract_all || negb (Py.truthy (slot_text XLIFF_TARGET tu)))
  | None => false
  end.

(** The inclusion test of the second loop, on a unit without namespace. *)
Definition fallback_includes (tu : Element) : bool :=
  match ET.find tu PLAIN_SOURCE with
  | Some source_elem => Py.truthy (stripped_text source_elem)
  | None => false
  end.

(** The segment a loop appends for a unit whose source slot is tagged
    [t]. *)
Definition segment_of (t : string) (tu : Element) : Segment :=
  mkSegment (unit_id tu) (slot_text t tu).

(** Example documents; [elem] builds an element with no tail. *)
Definition elem (t : string) (a : gmap string string) (tx : option string)
    (cs : list Element) : Element :=
  ET.mkElement t a tx None cs.

(** A namespaced unit that is already translated, beside a unit without
    namespace. *)
Definition doc_mixed : Element :=
  elem "xliff" ∅ None
    [ elem XLIFF_TRANS_UNIT {[ "id" := "1" ]} None
        [ elem XLIFF_SOURCE ∅ (Some "Hi") [];
          elem XLIFF_TARGET ∅ (Some "Salut") [] ];
      elem PLAIN_TRANS_UNIT {[ "id" := "2" ]} None
        [ elem PLAIN_SOURCE ∅ (Some "Hello") [] ] ].

(** A namespaced unit whose source is blank, beside a unit without
    namespace. *)
Definition doc_blank : Element :=
  elem "xliff" ∅ None
    [ elem XLIFF_TRANS_UNIT {[ "id" := "1" ]} None
        [ elem XLIFF_SOURCE ∅ (Some "   ") [] ];
      elem PLAIN_TRANS_UNIT {[ "id" := "2" ]} None
        [ elem PLAIN_SOURCE ∅ (Some "Hello") [] ] ].

(** A document of the second dialect with one translated unit. *)
Definition doc_plain_translated : Element :=
  elem "xliff" ∅ None
    [ elem PLAIN_TRANS_UNIT {[ "id" := "7" ]} None
        [ elem PLAIN_SOURCE ∅ (Some "Hello") [];
          elem "target" ∅ (Some "Bonjour") [] ] ].

(** A document of the second dialect with two units to translate. *)
Definition doc_plain_pair : Element :=
  elem "xliff" ∅ None
    [ elem PLAIN_TRANS_UNIT {[ "id" := "1" ]} None
        [ elem PLAIN_SOURCE ∅ (Some "Hello") [] ];
      elem PLAIN_TRANS_UNIT {[ "id" := "2" ]} None
        [ elem PLAIN_SOURCE ∅ (Some "World") [] ] ].

(** A unit with no [id] attribute, and two units under one id. *)
Definition doc_no_id : Element :=
  elem "xliff" ∅ None
    [ elem XLIFF_TRANS_UNIT ∅ None
        [ elem XLIFF_SOURCE ∅ (Some "Hello") [] ] ].

Definition doc_same_id : Element :=
  elem "xliff" ∅ None
    [ elem XLIFF_TRANS_UNIT {[ "id" := "1" ]} None
        [ elem XLIFF_SOURCE ∅ (Some "Hello") [] ];
      elem XLIFF_TRANS_UNIT {[ "id" := "1" ]} None
        [ elem XLIFF_SOURCE ∅ (Some "World") [] ] ].

(** ** Result files *)

(** A record [{id, source, target}] and a result file, as the
    translation step writes them. *)
Definition record (id target : string) : json :=
  JObj [("id", JStr id); ("source", JStr "text"); ("target", JStr target)].

Definition result_file (batch_number : Z) (translations : list json)
    : file_content :=
  Parsed (JObj [("batch_number", JInt batch_number);
                ("translations", JArr translations)]).

(** A good result file beside one that is not JSON. *)
Definition dir_corrupt : directory :=
  {[ "batch_001.json" := result_file 1 [record "1" "A"];
     "batch_002.json" := Unparsable ]}.

(** The record an item of a result file contributes: its id, as a key,
    and its target, when the item is an object that has both. *)
Definition item_record (item : json) : option (pykey * json) :=
  match item with
  | JObj members =>
      match obj_lookup "id" members, obj_lookup "target" members with
      | Some i, Some v =>
          match to_key i with
          | Ok k => Some (k, v)
          | Err _ => None
          end
      | _, _ => None
      end
  | _ => None
  end.

(** The items under ["translations"] of a result file. *)
Definition file_items (f : file_content) : list json :=
  match f with
  | Parsed (JObj members) =>
      match obj_lookup "translations" members with
      | Some ts =>
          match py_iter ts with
          | Ok items => items
          | Err _ => []
          end
      | None => []
      end
  | _ => []
  end.

(** The records of one result file, in the order of its items. *)
Definition file_records (f : file_content) : list (pykey * json) :=
  omap item_record (file_items f).

(** The records of all result files: file after file in sorted name
    order, and within a file in the order of its items. *)
Definition all_records (dir : directory) : list (pykey * json) :=
  result_files dir ≫= λ name,
    file_records (default Unparsable (dir !! name)).

(** The writes [translations[k] = v] for a list of records. *)
Definition write_all (translations : gmap pykey json)
    (records : list (pykey * json)) : gmap pykey json :=
  foldl (λ acc r, <[r.1 := r.2]> acc) translations records.

(** [batch_001.json] gives id "1" the target "A", [batch_002.json] gives
    it "B". *)
Definition dir_overlap : directory :=
  {[ "batch_002.json" := result_file 2 [record "1" "B"];
     "batch_001.json" := result_file 1 [record "1" "A"; record "2" "C"] ]}.

(** ** Merge *)

(** The unit carries an id of the map; the unit counts as missing. *)
Definition is_merged (translations : gmap string string) (tu : Element)
    : bool :=
  bool_decide (is_Some (translations !! unit_id tu)).

Definition is_missing (translations : gmap string string) (tu : Element)
    : bool :=
  negb (is_merged translations tu) && Py.truthy (slot_text XLIFF_SOURCE tu).

(** The counters a list of units adds up to. *)
Definition tally (translations : gmap string string)
    (units : list Element) : Z * Z :=
  (Z.of_nat (length (filter (λ tu, is_merged translations tu) units)),
   Z.of_nat (length (filter (λ tu, is_missing translations tu) units))).

(** Adding counters. *)
Definition add_counts (c d : Z * Z) : Z * Z := (c.1 + d.1, c.2 + d.2).

(** The target element the body creates for a unit that has none, with
    the translation as its text. *)
Definition new_target (v : string) : Element :=
  ET.mkElement XLIFF_TARGET ∅ (Some v) None [].

(** The element as the merge leaves it, as a function of the element
    alone: its children as the merge leaves them, and on a unit the
    writes of the loop body. *)
Fixpoint merge_tree (translations : gmap string string) (e : Element)
    : Element :=
  let e0 := ET.set_children e (merge_tree translations <$> ET.children e) in
  if decide (ET.tag e = XLIFF_TRANS_UNIT)
  then (merge_unit translations e0 (0, 0)).1
  else e0.

(** ** Text *)

(** The string has a character that is not white space. *)
Fixpoint has_ink (s : string) : bool :=
  match s with
  | EmptyString => false
  | String c s' => negb (Py.isspace c) || has_ink s'
  end.

(** The tag, attributes, text and tail of an element: all of it but its
    children. *)
Definition own_fields (e : Element)
    : string * gmap string string * option string * option string :=
  (ET.tag e, ET.attrib e, ET.text e, ET.tail e).

(** ** Well-formed result files *)

(** An item of a result file in the expected shape: an object, and when it
    has both ["id"] and ["target"] its id is a string, a number, a boolean
    or [null]. *)
Definition well_formed_item (item : json) : bool :=
  match item with
  | JObj members =>
      match obj_lookup "id" members, obj_lookup "target" members with
      | Some i, Some _ =>
          match to_key i with
          | Ok _ => true
          | Err _ => false
          end
      | _, _ => true
      end
  | _ => false
  end.

(** A result file in the expected shape: it parses to an object, and its
    ["translations"], when it has any, is an array of well-formed items. *)
Definition well_formed_file (f : file_content) : bool :=
  match f with
  | Parsed (JObj members) =>
      match obj_lookup "translations" members with
      | Some (JArr items) => forallb well_formed_item items
      | Some _ => false
      | None => true
      end
  | _ => false
  end.

(** A result file with a record that has no target and one that has no
    id, beside a manifest that is not a result file. *)
Definition dir_partial : directory :=
  {[ "batch_001.json" :=
       result_file 1 [record "1" "A";
                      JObj [("id", JStr "2"); ("source", JStr "text")];
                      JObj [("target", JStr "C")]];
     "manifest.json" := Unparsable ]}.

(** ** Batch files *)

(** The segments a batch file holds, as the translation step reads them:
    [batch_data['segments']], and of each its ['id'] and ['source']. *)
Definition read_segment (item : json) : option Segment :=
  match item with
  | JObj members =>
      match obj_lookup "id" members, obj_lookup "source" members with
      | Some (JStr i), Some (JStr s) => Some (mkSegment i s)
      | _, _ => None
      end
  | _ => None
  end.

Definition batch_file_segments (f : option file_content)
    : option (list Segment) :=
  match f with
  | Some (Parsed (JObj members)) =>
      match obj_lookup "segments" members with
      | Some (JArr items) => mapM read_segment items
      | _ => None
      end
  | _ => None
  end.

(** A string without its leading zeros. *)
Fixpoint drop_zeros (s : string) : string :=
  match s with
  | String "0" s' => drop_zeros s'
  | _ => s
  end.

(** The names of a list are in strictly increasing order, pair after
    pair. *)
Fixpoint increasing (names : list string) : bool :=
  match names with
  | a :: (b :: _) as rest =>
      bool_decide (strict String.le a b) && increasing rest
  | _ => true
  end.

(** A document of the first dialect with three units to translate. *)
Definition doc_three : Element :=
  elem "xliff" ∅ None
    [ elem XLIFF_TRANS_UNIT {[ "id" := "1" ]} None
        [ elem XLIFF_SOURCE ∅ (Some "One") [] ];
      elem XLIFF_TRANS_UNIT {[ "id" := "2" ]} None
        [ elem XLIFF_SOURCE ∅ (Some "Two") [] ];
      elem XLIFF_TRANS_UNIT {[ "id" := "3" ]} None
        [ elem XLIFF_SOURCE ∅ (Some "Three") [] ] ].

(** ** Replies *)

(** A reply in the form the prompt asks for: some text, then for each
    entry the line [[ID: id]], the translation, and an empty line. *)
Definition reply_body (translation : string) : string :=
  String "010" (translation +:+ String "010" (String "010" "")).

Definition reply_entry (entry : string * string) : string :=
  "[ID: " +:+ entry.1 +:+ "]" +:+ reply_body entry.2.

Fixpoint reply_entries (entries : list (string * string)) : string :=
  match entries with
  | [] => EmptyString
  | entry :: entries => reply_entry entry +:+ reply_entries entries
  end.

Definition reply (preamble : string) (entries : list (string * string))
    : string :=
  preamble +:+ reply_entries entries.

(** The character does not occur in the string. *)
Fixpoint lacks (c : ascii) (s : string) : bool :=
  match s with
  | EmptyString => true
  | String d s' => negb (bool_decide (d = c)) && lacks c s'
  end.

(** The map a well-formed reply stands for: stripped id to stripped
    translation, a later entry replacing an earlier one of the same id. *)
Definition reply_map (entries : list (string * string))
    : gmap string string :=
  foldl (λ m entry, <[Py.strip entry.1 := Py.strip entry.2]> m) ∅ entries.

(** The string is empty or starts with a character that is not white
    space. *)
Definition left_stripped (s : string) : bool :=
  match s with
  | EmptyString => true
  | String c _ => negb (Py.isspace c)
  end.

(** * Part III: properties *)

(** ** The partition loop *)

Section SplitFacts.
Context {A : Type}.
Implicit Types (segments : list A) (batches : list (list A)).

Lemma slice_exact segments (idx size : Z) :
  0 ≤ idx → 0 ≤ size → idx + size ≤ Z.of_nat (length segments) →
  Py.slice segments idx (idx + size)
    = take (Z.to_nat size) (drop (Z.to_nat idx) segments).
Proof.
  intros Hi Hs Hle. unfold Py.slice, Py.clamp.
  destruct (idx <? 0) eqn:E1; [apply Z.ltb_lt in E1; lia|].
  destruct (idx + size <? 0) eqn:E2; [apply Z.ltb_lt in E2; lia|].
  rewrite !Z.min_l by lia. do 2 f_equal. lia.
Qed.

Lemma idx_after_S base_size remainder k :
  idx_after base_size remainder (S k)
    = idx_after base_size remainder k
      + batch_size_at base_size remainder (Z.of_nat k).
Proof.
  unfold idx_after, batch_size_at.
  destruct (Z.of_nat k <? remainder) eqn:E;
    [apply Z.ltb_lt in E | apply Z.ltb_ge in E]; lia.
Qed.

Lemma range_S (k : nat) :
  Py.range (Z.of_nat (S k)) = Py.range (Z.of_nat k) ++ [Z.of_nat k].
Proof.
  unfold Py.range. rewrite !Nat2Z.id, seq_S, fmap_app. reflexivity.
Qed.

(** Invariant of the loop: after [k ≤ num_batches] turns the batches are
    the first [idx] segments, cut at the computed sizes. *)
Lemma batch_loop_invariant segments base_size remainder (n k : nat) :
  0 ≤ base_size → 0 ≤ remainder < Z.of_nat n →
  Z.of_nat (length segments) = Z.of_nat n * base_size + remainder →
  (k ≤ n)%nat →
  let st := foldl (batch_step segments base_size remainder) ([], 0)
              (Py.range (Z.of_nat k)) in
  st.2 = idx_after base_size remainder k
  ∧ concat st.1 = take (Z.to_nat st.2) segments
  ∧ (λ b, Z.of_nat (length b)) <$> st.1
      = batch_size_at base_size remainder <$> Py.range (Z.of_nat k).
Proof.
  intros Hb Hr Htot. induction k as [|k IH]; intros Hk.
  - unfold Py.range, idx_after. simpl. split; [lia|]. split; reflexivity.
  - cbv zeta in *. rewrite range_S, foldl_app. cbn [foldl].
    destruct (foldl _ _ (Py.range (Z.of_nat k))) as [bs idx] eqn:Est.
    destruct IH as (Hidx & Hcat & Hlen); [lia|]. cbn [fst snd] in *.
    unfold batch_step. fold (batch_size_at base_size remainder (Z.of_nat k)).
    cbn [fst snd].
    assert (Hsz : 0 ≤ batch_size_at base_size remainder (Z.of_nat k))
      by (unfold batch_size_at; destruct (_ <? _); lia).
    assert (Hnext : idx + batch_size_at base_size remainder (Z.of_nat k)
                    = idx_after base_size remainder (S k))
      by (rewrite idx_after_S; lia).
    assert (Hpos : 0 ≤ idx) by (subst idx; unfold idx_after; lia).
    assert (Hfit : idx_after base_size remainder (S k)
                   ≤ Z.of_nat (length segments)).
    { unfold idx_after. rewrite Htot.
      assert (Z.of_nat (S k) * base_size ≤ Z.of_nat n * base_size) by nia.
      lia. }
    rewrite slice_exact by lia.
    split; [exact Hnext|]. split.
    + rewrite concat_app, Hcat. cbn [concat]. rewrite app_nil_r.
      rewrite Z2Nat.inj_add by lia. apply take_take_drop.
    + rewrite !fmap_app, Hlen. cbn [fmap list_fmap]. do 2 f_equal.
      rewrite length_take, length_drop. lia.
Qed.

Lemma length_range (n : Z) : length (Py.range n) = Z.to_nat n.
Proof. unfold Py.range. rewrite length_fmap. apply length_seq. Qed.

Lemma lookup_range (n : Z) (i : nat) :
  (i < Z.to_nat n)%nat → Py.range n !! i = Some (Z.of_nat i).
Proof.
  intros Hi. unfold Py.range. rewrite list_lookup_fmap, lookup_seq_lt by lia.
  reflexivity.
Qed.

Lemma length_concat_sum batches :
  length (concat batches) = sum_list (length <$> batches).
Proof.
  induction batches as [|b batches IH]; [reflexivity|].
  cbn. rewrite length_app, IH. reflexivity.
Qed.

(** [num_batches] is the ceiling of [total / batch_size]. *)
Lemma num_batches_ceil (total batch_size : Z) :
  1 ≤ total → 1 ≤ batch_size →
  let num_batches := Z.max 1 (- ((- total) / batch_size)) in
  1 ≤ num_batches
  ∧ (num_batches - 1) * batch_size < total ≤ num_batches * batch_size.
Proof.
  intros Ht Hb. cbv zeta.
  pose proof (Z.div_mod (- total) batch_size ltac:(lia)) as Hdm.
  pose proof (Z.mod_pos_bound (- total) batch_size ltac:(lia)) as Hm.
  set (q := (- total) / batch_size) in *.
  set (r := (- total) mod batch_size) in *.
  assert (1 ≤ - q) by nia.
  rewrite Z.max_r by lia. split; [lia|]. nia.
Qed.

(** What the loop returns, for any non-zero batch size: the input cut, in
    order, into [num_batches] slices of the sizes computed. *)
Lemma split_into_batches_cut segments (batch_size : Z) :
  segments ≠ [] → batch_size ≠ 0 →
  let total := Z.of_nat (length segments) in
  let num_batches := Z.max 1 (- ((- total) / batch_size)) in
  ∃ batches,
    split_into_batches segments batch_size = Ok batches
    ∧ concat batches = segments
    ∧ (λ b, Z.of_nat (length b)) <$> batches
        = batch_size_at (total / num_batches) (total mod num_batches)
            <$> Py.range num_batches.
Proof.
  intros Hne Hbs. cbv zeta. unfold split_into_batches.
  set (total := Z.of_nat (length segments)).
  assert (Htot : 1 ≤ total) by (destruct segments; [done | cbn in total; lia]).
  destruct (total =? 0) eqn:E0; [apply Z.eqb_eq in E0; lia|].
  destruct (batch_size =? 0) eqn:E1; [apply Z.eqb_eq in E1; lia|].
  set (n := Z.max 1 (- (- total / batch_size))).
  assert (Hn : 1 ≤ n) by (unfold n; lia).
  pose proof (Z.div_mod total n ltac:(lia)) as Hdm.
  pose proof (Z.mod_pos_bound total n ltac:(lia)) as Hm.
  assert (Hbase : 0 ≤ total / n) by (apply Z.div_pos; lia).
  destruct (batch_loop_invariant segments (total / n) (total mod n)
              (Z.to_nat n) (Z.to_nat n)) as (Hidx & Hcat & Hlen);
    [lia | lia | fold total; lia | lia |].
  rewrite Z2Nat.id in * by lia.
  eexists. split; [reflexivity|]. split; [|exact Hlen].
  rewrite Hcat, Hidx. unfold idx_after. apply take_ge. lia.
Qed.

End SplitFacts.

(** C1. For a non-empty list of units and a batch size of at least 1,
    [split_into_batches] returns [ceil(total / batch_size)] batches; with
    [base = total // n] and [remainder = total % n], batch [i] has
    [base + 1] units when [i < remainder] and [base] units otherwise, so
    any two sizes differ by at most 1 and the sizes add up to [total];
    162 units at batch size 40 give batches of 33, 33, 32, 32, 32. *)
Theorem split_into_batches_balanced {A} (segments : list A) (batch_size : Z) :
  segments ≠ [] → 1 ≤ batch_size →
  ∃ batches,
    split_into_batches segments batch_size = Ok batches
    ∧ let total := Z.of_nat (length segments) in
      let n := Z.of_nat (length batches) in
      (n - 1) * batch_size < total ≤ n * batch_size
      ∧ n = (total + batch_size - 1) / batch_size
      ∧ (∀ (i : nat) b, batches !! i = Some b →
           Z.of_nat (length b)
             = total / n + (if Z.of_nat i <? total mod n then 1 else 0))
      ∧ (∀ b1 b2, b1 ∈ batches → b2 ∈ batches →
           (length b1 ≤ length b2 + 1)%nat)
      ∧ sum_list (length <$> batches) = length segments
      ∧ (length segments = 162%nat → batch_size = 40 →
           length <$> batches = [33; 33; 32; 32; 32]%nat).
Proof.
  intros Hne Hbs.
  destruct (split_into_batches_cut segments batch_size Hne ltac:(lia))
    as (batches & Hrun & Hcat & Hlen).
  exists batches. split; [exact Hrun|]. cbv zeta in *.
  set (total := Z.of_nat (length segments)) in *.
  assert (Htot : 1 ≤ total) by (destruct segments; [done | cbn in total; lia]).
  destruct (num_batches_ceil total batch_size Htot Hbs) as (Hn1 & Hceil).
  set (num := Z.max 1 (- (- total / batch_size))) in *.
  assert (Hcount : Z.of_nat (length batches) = num).
  { apply (f_equal length) in Hlen. rewrite !length_fmap, length_range in Hlen.
    lia. }
  rewrite Hcount.
  assert (Hsize : ∀ (i : nat) b, batches !! i = Some b →
            Z.of_nat (length b)
              = total / num + (if Z.of_nat i <? total mod num then 1 else 0)).
  { intros i b Hb.
    assert (Hi : (i < Z.to_nat num)%nat)
      by (apply lookup_lt_Some in Hb; lia).
    apply (f_equal (λ l, l !! i)) in Hlen.
    rewrite !list_lookup_fmap, Hb, lookup_range in Hlen by exact Hi.
    cbn in Hlen. injection Hlen as ->. reflexivity. }
  split; [exact Hceil|]. split.
  { apply (Z.div_unique_pos _ _ _ (total + batch_size - 1 - num * batch_size));
      lia. }
  split; [exact Hsize|]. split.
  { intros b1 b2 [i1 H1]%list_elem_of_lookup [i2 H2]%list_elem_of_lookup.
    apply Hsize in H1, H2.
    destruct (Z.of_nat i1 <? _), (Z.of_nat i2 <? _); lia. }
  split.
  { rewrite <- length_concat_sum, Hcat. reflexivity. }
  intros H162 ->. unfold num, total in Hlen. rewrite H162 in Hlen.
  change (_ <$> Py.range _) with [33; 33; 32; 32; 32] in Hlen.
  destruct batches as [|b1 [|b2 [|b3 [|b4 [|b5 [|]]]]]]; try discriminate Hlen.
  injection Hlen as E1 E2 E3 E4 E5. cbn. repeat f_equal; lia.
Qed.

Lemma split_into_batches_balanced_witness :
  ∃ batches,
    split_into_batches [1; 2; 3; 4; 5; 6; 7]%nat 3 = Ok batches
    ∧ length <$> batches = [3; 2; 2]%nat.
Proof.
  destruct (split_into_batches_balanced [1; 2; 3; 4; 5; 6; 7]%nat 3)
    as (batches & Hrun & _); [discriminate | lia |].
  exists batches. split; [exact Hrun|].
  vm_compute in Hrun. injection Hrun as <-. reflexivity.
Defined.

(** C2. For every list of units and a batch size of at least 1, the
    batches of [split_into_batches], concatenated in order, are the input
    sequence: nothing is lost, repeated or moved. *)
Theorem split_into_batches_concat {A} (segments : list A) (batch_size : Z) :
  1 ≤ batch_size →
  ∃ batches,
    split_into_batches segments batch_size = Ok batches
    ∧ concat batches = segments.
Proof.
  intros Hbs. destruct segments as [|x segments].
  - exists []. split; reflexivity.
  - destruct (split_into_batches_cut (x :: segments) batch_size)
      as (batches & Hrun & Hcat & _); [discriminate | lia |].
    exists batches. split; assumption.
Qed.

Lemma split_into_batches_concat_witness :
  ∃ batches,
    split_into_batches ["a"; "b"; "c"; "d"; "e"] 2 = Ok batches
    ∧ concat batches = ["a"; "b"; "c"; "d"; "e"].
Proof. apply (split_into_batches_concat ["a"; "b"; "c"; "d"; "e"] 2). lia. Defined.

(** C8, as the code has it. Given no unit, [split_into_batches] raises
    nothing: it returns the empty list of batches, whatever the batch
    size. *)
Theorem split_into_batches_empty {A} (batch_size : Z) :
  split_into_batches (@nil A) batch_size = Ok [].
Proof. reflexivity. Qed.

(** C8 as stated fails: on zero units the call returns normally, with no
    batch, and no error reaches the caller. *)
Lemma split_into_batches_empty_no_error :
  split_into_batches (@nil Segment) 50 = Ok []
  ∧ ∀ e, split_into_batches (@nil Segment) 50 ≠ Err e.
Proof. split; [reflexivity | discriminate]. Qed.

(** ** Extraction *)

Lemma foldl_append {A B} (f : list A → B → list A) (g : B → list A)
    (acc : list A) (l : list B) :
  (∀ acc x, f acc x = acc ++ g x) →
  foldl f acc l = acc ++ (l ≫= g).
Proof.
  intros Hf. revert acc. induction l as [|x l IH]; intros acc; cbn.
  - rewrite app_nil_r. reflexivity.
  - rewrite IH, Hf, <- app_assoc. reflexivity.
Qed.

Lemma bind_filter_fmap {A B} (P : A → bool) (f : A → B) (l : list A) :
  (l ≫= λ x, if P x then [f x] else []) = f <$> filter (λ x, P x) l.
Proof.
  induction l as [|x l IH]; [reflexivity|].
  rewrite bind_cons, filter_cons, IH.
  destruct (P x); cbn; [rewrite decide_True by done | rewrite decide_False by tauto];
    reflexivity.
Qed.

Lemma primary_step_eq extract_all segments tu :
  primary_step extract_all segments tu
    = segments ++ (if primary_includes extract_all tu
                   then [segment_of XLIFF_SOURCE tu] else []).
Proof.
  unfold primary_step, primary_includes, segment_of, slot_text, unit_id.
  destruct (ET.find tu XLIFF_SOURCE) as [s|]; [|by rewrite app_nil_r].
  destruct (ET.find tu XLIFF_TARGET) as [t|];
    destruct (Py.truthy (stripped_text s) && _); by rewrite ?app_nil_r.
Qed.

Lemma fallback_step_eq segments tu :
  fallback_step segments tu
    = segments ++ (if fallback_includes tu
                   then [segment_of PLAIN_SOURCE tu] else []).
Proof.
  unfold fallback_step, fallback_includes, segment_of, slot_text, unit_id.
  destruct (ET.find tu PLAIN_SOURCE) as [s|]; [|by rewrite app_nil_r].
  destruct (Py.truthy (stripped_text s)); by rewrite ?app_nil_r.
Qed.

(** The first loop keeps, in document order, the namespaced units that
    pass its test. *)
Lemma primary_pass_eq root extract_all :
  primary_pass root extract_all
    = segment_of XLIFF_SOURCE
        <$> filter (λ tu, primary_includes extract_all tu)
              (ET.iter XLIFF_TRANS_UNIT root).
Proof.
  unfold primary_pass.
  rewrite (foldl_append _ _ _ _ (primary_step_eq extract_all)).
  cbn [app]. apply bind_filter_fmap.
Qed.

Lemma fallback_pass_eq root :
  foldl fallback_step [] (ET.iter PLAIN_TRANS_UNIT root)
    = segment_of PLAIN_SOURCE
        <$> filter (λ tu, fallback_includes tu) (ET.iter PLAIN_TRANS_UNIT root).
Proof.
  rewrite (foldl_append _ _ _ _ fallback_step_eq).
  cbn [app]. apply bind_filter_fmap.
Qed.

Lemma truthy_list_false {A} (l : list A) :
  Py.truthy_list l = false ↔ l = [].
Proof. destruct l; cbn; split; congruence. Qed.

Lemma extract_segments_eq root extract_all :
  extract_segments root extract_all
    = if fallback_runs root extract_all
      then segment_of PLAIN_SOURCE
             <$> filter (λ tu, fallback_includes tu)
                   (ET.iter PLAIN_TRANS_UNIT root)
      else segment_of XLIFF_SOURCE
             <$> filter (λ tu, primary_includes extract_all tu)
                   (ET.iter XLIFF_TRANS_UNIT root).
Proof.
  unfold extract_segments, fallback_runs.
  destruct (Py.truthy_list (primary_pass root extract_all)) eqn:E; cbn.
  - apply primary_pass_eq.
  - apply truthy_list_false in E. rewrite E. apply fallback_pass_eq.
Qed.

(** C3, as the code has it. The second loop runs exactly when the first
    one has appended nothing, that is when no namespaced unit passes the
    inclusion test (a document with no namespaced unit is one case); the
    result is then what the second loop collects, and otherwise what the
    first one did. *)
Theorem fallback_runs_iff_nothing_extracted root extract_all :
  (fallback_runs root extract_all = true
   ↔ Forall (λ tu, primary_includes extract_all tu = false)
       (ET.iter XLIFF_TRANS_UNIT root))
  ∧ (ET.iter XLIFF_TRANS_UNIT root = [] → fallback_runs root extract_all = true)
  ∧ extract_segments root extract_all
      = if fallback_runs root extract_all
        then segment_of PLAIN_SOURCE
               <$> filter (λ tu, fallback_includes tu)
                     (ET.iter PLAIN_TRANS_UNIT root)
        else segment_of XLIFF_SOURCE
               <$> filter (λ tu, primary_includes extract_all tu)
                     (ET.iter XLIFF_TRANS_UNIT root).
Proof.
  assert (Hiff : fallback_runs root extract_all = true
                 ↔ Forall (λ tu, primary_includes extract_all tu = false)
                     (ET.iter XLIFF_TRANS_UNIT root)).
  { unfold fallback_runs. rewrite negb_true_iff, truthy_list_false, primary_pass_eq.
    induction (ET.iter XLIFF_TRANS_UNIT root) as [|tu l IH]; [by split|].
    rewrite filter_cons, Forall_cons.
    destruct (primary_includes extract_all tu) eqn:E; cbn.
    - rewrite decide_True by done.
      split; [discriminate | intros [? _]; discriminate].
    - rewrite decide_False by tauto. rewrite IH. tauto. }
  split; [exact Hiff|]. split; [|apply extract_segments_eq].
  intros Hnil. apply Hiff. rewrite Hnil. constructor.
Qed.

(** C3 as stated fails: each document has a namespaced unit, excluded by
    the inclusion rule or blank, and the second loop runs all the same and
    supplies the result. *)
Lemma fallback_runs_despite_primary_units :
  (length (ET.iter XLIFF_TRANS_UNIT doc_mixed) = 1%nat
   ∧ fallback_runs doc_mixed false = true
   ∧ extract_segments doc_mixed false = [mkSegment "2" "Hello"])
  ∧ (length (ET.iter XLIFF_TRANS_UNIT doc_blank) = 1%nat
     ∧ fallback_runs doc_blank true = true
     ∧ extract_segments doc_blank true = [mkSegment "2" "Hello"]).
Proof. vm_compute. repeat split. Qed.

(** The inclusion rule of the first loop: a namespaced unit is extracted
    exactly when its stripped source is non-empty and the mode is "all" or
    its stripped target is empty. *)
Lemma primary_inclusion_rule extract_all tu :
  primary_includes extract_all tu = true
  ↔ slot_text XLIFF_SOURCE tu ≠ ""
    ∧ (extract_all = true ∨ slot_text XLIFF_TARGET tu = "").
Proof.
  unfold primary_includes, slot_text.
  destruct (ET.find tu XLIFF_SOURCE) as [s|]; [|split; [discriminate | tauto]].
  rewrite andb_true_iff, orb_true_iff, negb_true_iff.
  destruct (stripped_text s); cbn; [split; [intros [? _]; discriminate | tauto]|].
  destruct (ET.find tu XLIFF_TARGET) as [t|]; [destruct (stripped_text t)|];
    cbn; intuition congruence.
Qed.

(** C4 at the failing input: in the second dialect, in untranslated-only
    mode, the unit whose target is "Bonjour" is extracted. *)
Lemma fallback_extracts_translated_unit :
  fallback_runs doc_plain_translated false = true
  ∧ extract_segments doc_plain_translated false = [mkSegment "7" "Hello"]
  ∧ (ET.iter PLAIN_TRANS_UNIT doc_plain_translated
       ≫= λ tu, [slot_text "target" tu]) = ["Bonjour"].
Proof. vm_compute. repeat split. Qed.

(** C9, as the code has it. The ids of the extracted segments are, in
    document order, ids of unit elements of one dialect of the document,
    where the id of a unit is its [id] attribute or the empty string when
    it has none. Nothing is checked beyond that: the extracted ids are
    pairwise distinct when the units' ids are, and non-empty when every
    unit carries a non-empty [id] attribute. *)
Theorem extract_segments_ids root extract_all :
  ∃ t, (t = XLIFF_TRANS_UNIT ∨ t = PLAIN_TRANS_UNIT)
    ∧ let ids := seg_id <$> extract_segments root extract_all in
      let units := ET.iter t root in
      ids `sublist_of` (unit_id <$> units)
      ∧ (∀ i, i ∈ ids →
           ∃ tu, tu ∈ units ∧ i = default "" (ET.attrib tu !! "id"))
      ∧ (NoDup (unit_id <$> units) → NoDup ids)
      ∧ (Forall (λ tu, ∃ i, ET.attrib tu !! "id" = Some i ∧ i ≠ "") units →
           Forall (λ i, i ≠ "") ids).
Proof.
  assert (Hsub : ∀ t (P : Element → bool) (l : list Element),
            seg_id <$> (segment_of t <$> filter (λ tu, P tu) l)
              `sublist_of` (unit_id <$> l)).
  { intros t P l. rewrite <- list_fmap_compose.
    change (seg_id ∘ segment_of t) with unit_id.
    apply fmap_sublist, sublist_filter. }
  assert (Hall : ∃ t, (t = XLIFF_TRANS_UNIT ∨ t = PLAIN_TRANS_UNIT)
                   ∧ seg_id <$> extract_segments root extract_all
                       `sublist_of` (unit_id <$> ET.iter t root)).
  { rewrite extract_segments_eq. destruct (fallback_runs root extract_all).
    - exists PLAIN_TRANS_UNIT. split; [by right | apply Hsub].
    - exists XLIFF_TRANS_UNIT. split; [by left | apply Hsub]. }
  destruct Hall as (t & Ht & Hids). exists t. split; [exact Ht|]. cbv zeta.
  split; [exact Hids|]. split; [|split].
  - intros i Hi. apply (sublist_subseteq _ _ Hids) in Hi.
    apply list_elem_of_fmap in Hi as (tu & -> & Htu). by exists tu.
  - intros Hnd. eapply sublist_NoDup; eassumption.
  - intros Hne. apply Forall_forall. intros i Hi.
    apply (sublist_subseteq _ _ Hids) in Hi.
    apply list_elem_of_fmap in Hi as (tu & -> & Htu).
    rewrite Forall_forall in Hne. destruct (Hne tu Htu) as (i & Hi & Hn).
    unfold unit_id, ET.get. rewrite Hi. exact Hn.
Qed.

(** C9 as stated fails: a unit with no [id] attribute is extracted under
    the empty id, which no attribute of the document holds, and two units
    under one id are both extracted. *)
Lemma extract_segments_ids_unchecked :
  (extract_segments doc_no_id true = [mkSegment "" "Hello"]
   ∧ Forall (λ tu, ET.attrib tu !! "id" = None)
       (ET.iter XLIFF_TRANS_UNIT doc_no_id))
  ∧ seg_id <$> extract_segments doc_same_id true = ["1"; "1"]
  ∧ ¬ NoDup (seg_id <$> extract_segments doc_same_id true).
Proof.
  split; [split; [reflexivity | repeat constructor]|].
  split; [reflexivity|].
  change (seg_id <$> extract_segments doc_same_id true) with ["1"; "1"].
  rewrite NoDup_cons. intros [Hn _]. apply Hn. left.
Qed.

(** ** Loading the result files *)

Lemma foldM_raises {A B} (f : A → B → result A) (a : A) (l : list B) (x : B) :
  x ∈ l → (∀ a, ∃ e, f a x = Err e) → ∃ e, foldM f a l = Err e.
Proof.
  intros Hx Hf. revert a. induction l as [|y l IH]; intros a.
  - by apply elem_of_nil in Hx.
  - cbn. apply elem_of_cons in Hx as [<- | Hx].
    + destruct (Hf a) as [e ->]. by exists e.
    + destruct (f a y) as [a'|e]; cbn; [by apply IH | by exists e].
Qed.

Lemma elem_of_result_files (dir : directory) (name : string) :
  name ∈ result_files dir
  ↔ is_batch_file name = true ∧ is_Some (dir !! name).
Proof.
  unfold result_files. rewrite merge_sort_Permutation.
  rewrite list_elem_of_filter, elem_of_elements, elem_of_dom.
  rewrite Is_true_true. reflexivity.
Qed.

Lemma result_files_sorted (dir : directory) :
  StronglySorted String.le (result_files dir) ∧ NoDup (result_files dir).
Proof.
  split.
  - apply StronglySorted_merge_sort; apply _.
  - unfold result_files. rewrite merge_sort_Permutation.
    apply NoDup_filter, NoDup_elements.
Qed.

(** C5, as the code has it. A result file that fails to parse is fatal to
    the load: when a file named [batch_*.json] cannot be parsed,
    [load_all_translations] raises and returns no map. *)
Theorem load_all_translations_corrupt_file_raises (dir : directory)
    (name : string) :
  is_batch_file name = true → dir !! name = Some Unparsable →
  ∃ e, load_all_translations dir = Err e.
Proof.
  intros Hname Hfile. unfold load_all_translations.
  apply (foldM_raises _ _ _ name).
  - apply elem_of_result_files. rewrite Hfile. eauto.
  - intros tr. rewrite Hfile. by exists JSONDecodeError.
Qed.

Lemma load_all_translations_corrupt_file_raises_witness :
  ∃ e, load_all_translations dir_corrupt = Err e.
Proof.
  apply (load_all_translations_corrupt_file_raises dir_corrupt "batch_002.json");
    reflexivity.
Defined.

(** C5 as stated fails: with one corrupt file beside a good one the load
    raises [JSONDecodeError]; the map of the good file alone, which the
    load returns once the corrupt file is gone, is not returned. *)
Lemma load_all_translations_corrupt_file_not_skipped :
  load_all_translations dir_corrupt = Err JSONDecodeError
  ∧ load_all_translations (delete "batch_002.json" dir_corrupt)
      = Ok {[ KStr "1" := JStr "A" ]}.
Proof. split; reflexivity. Qed.

(** *** Records *)

Lemma write_all_app translations rs1 rs2 :
  write_all translations (rs1 ++ rs2)
    = write_all (write_all translations rs1) rs2.
Proof. apply foldl_app. Qed.

Lemma write_all_absent translations records (k : pykey) :
  k ∉ records.*1 → write_all translations records !! k = translations !! k.
Proof.
  revert translations. induction records as [|[k' v'] rs IH];
    intros tr Hk; [reflexivity|].
  cbn in *. apply not_elem_of_cons in Hk as [Hne Hk].
  unfold write_all in *. cbn. rewrite IH by exact Hk.
  apply lookup_insert_ne. congruence.
Qed.

Lemma write_all_last translations before after (k : pykey) (v : json) :
  k ∉ after.*1 →
  write_all translations (before ++ (k, v) :: after) !! k = Some v.
Proof.
  intros Hk. rewrite write_all_app.
  change ((k, v) :: after) with ([(k, v)] ++ after).
  rewrite write_all_app, write_all_absent by exact Hk.
  cbn. apply lookup_insert_eq.
Qed.

Lemma load_item_Ok translations item translations' :
  load_item translations item = Ok translations' →
  translations' = write_all translations (option_list (item_record item)).
Proof.
  unfold load_item. destruct item as [| | | s | items | members]; cbn;
    try discriminate.
  - destruct (Py.contains_str "id" s); cbn; [|congruence].
    destruct (Py.contains_str "target" s); cbn; congruence.
  - destruct (existsb (is_str "id") items); cbn; [|congruence].
    destruct (existsb (is_str "target") items); cbn; congruence.
  - destruct (obj_lookup "id" members) as [i|]; cbn; [|congruence].
    destruct (obj_lookup "target" members) as [v|]; cbn; [|congruence].
    destruct (to_key i) as [k|e]; cbn; congruence.
Qed.

Lemma load_items_Ok translations items translations' :
  foldM load_item translations items = Ok translations' →
  translations' = write_all translations (omap item_record items).
Proof.
  revert translations. induction items as [|item items IH]; intros tr; cbn.
  - congruence.
  - destruct (load_item tr item) as [tr1|e] eqn:E; cbn; [|discriminate].
    intros H. apply IH in H. apply load_item_Ok in E. subst.
    destruct (item_record item) as [r|]; reflexivity.
Qed.

Lemma load_file_Ok translations f translations' :
  load_file translations f = Ok translations' →
  translations' = write_all translations (file_records f).
Proof.
  unfold load_file, file_records, file_items.
  destruct f as [|data]; cbn; [discriminate|].
  destruct data as [| | | s | items | members]; cbn; try discriminate.
  - destruct (Py.contains_str "translations" s); cbn; congruence.
  - destruct (existsb (is_str "translations") items); cbn; congruence.
  - destruct (obj_lookup "translations" members) as [ts|]; cbn; [|congruence].
    destruct (py_iter ts) as [items|e]; cbn; [|discriminate].
    apply load_items_Ok.
Qed.

Lemma load_files_Ok (dir : directory) translations names translations' :
  foldM (λ translations filepath,
           load_file translations (default Unparsable (dir !! filepath)))
    translations names = Ok translations' →
  translations'
    = write_all translations
        (names ≫= λ name, file_records (default Unparsable (dir !! name))).
Proof.
  revert translations. induction names as [|name names IH]; intros tr; cbn.
  - congruence.
  - destruct (load_file tr _) as [tr1|e] eqn:E; cbn; [|discriminate].
    intros H. apply IH in H. apply load_file_Ok in E. subst.
    rewrite write_all_app. reflexivity.
Qed.

(** C6. [load_all_translations] goes through the result files in sorted
    name order, each file once, and writes their records into the map in
    that order; so for an id carried by several records the last record,
    that of the lexically latest file and the latest place in it, gives
    the value, and an id no record carries is not in the map. *)
Theorem load_all_translations_last_write_wins (dir : directory)
    (m : gmap pykey json) :
  load_all_translations dir = Ok m →
  (StronglySorted String.le (result_files dir) ∧ NoDup (result_files dir))
  ∧ (∀ name, name ∈ result_files dir
       ↔ is_batch_file name = true ∧ is_Some (dir !! name))
  ∧ m = write_all ∅ (all_records dir)
  ∧ (∀ k v before after,
       all_records dir = before ++ (k, v) :: after →
       k ∉ after.*1 → m !! k = Some v)
  ∧ (∀ k, k ∉ (all_records dir).*1 → m !! k = None).
Proof.
  intros Hload. apply load_files_Ok in Hload. fold (all_records dir) in Hload.
  split; [apply result_files_sorted|].
  split; [apply elem_of_result_files|].
  split; [exact Hload|]. subst m. split.
  - intros k v before after -> Hk. by apply write_all_last.
  - intros k Hk. rewrite write_all_absent by exact Hk. apply lookup_empty.
Qed.

Lemma load_all_translations_last_write_wins_witness :
  ∃ m, load_all_translations dir_overlap = Ok m
     ∧ m !! KStr "1" = Some (JStr "B")
     ∧ m !! KStr "2" = Some (JStr "C").
Proof.
  eexists. split; [reflexivity|].
  destruct (load_all_translations_last_write_wins dir_overlap _ eq_refl)
    as (_ & _ & _ & Hlast & _).
  split.
  - apply (Hlast _ _ [(KStr "1", JStr "A"); (KStr "2", JStr "C")] []);
      [reflexivity | apply not_elem_of_nil].
  - apply (Hlast _ _ [(KStr "1", JStr "A")] [(KStr "1", JStr "B")]);
      [reflexivity|].
    cbn. rewrite elem_of_cons, elem_of_nil. intros [[=]|[]].
Defined.

(** ** Merging *)

(** *** Trees *)

Lemma Element_tree_ind (P : Element → Prop) :
  (∀ t a tx tl cs, Forall P cs → P (ET.mkElement t a tx tl cs)) →
  ∀ e, P e.
Proof.
  intros H.
  exact (fix IH (e : Element) : P e :=
           match e with
           | ET.mkElement t a tx tl cs =>
               H t a tx tl cs
                 ((fix go (cs : list Element) : Forall P cs :=
                     match cs with
                     | [] => Forall_nil_2 P
                     | c :: cs => Forall_cons_2 P c cs (IH c) (go cs)
                     end) cs)
           end).
Qed.

Lemma depth_child (e c : Element) :
  c ∈ ET.children e → (ET.depth c < ET.depth e)%nat.
Proof.
  destruct e as [t a tx tl cs]. cbn [ET.children ET.depth].
  induction cs as [|c' cs IH]; intros Hc.
  - by apply elem_of_nil in Hc.
  - cbn [foldr]. apply elem_of_cons in Hc as [-> | Hc]; [lia|].
    specialize (IH Hc). lia.
Qed.

Lemma depth_set_text (e : Element) (t : option string) :
  ET.depth (ET.set_text e t) = ET.depth e.
Proof. destruct e; reflexivity. Qed.

Lemma target_is_no_unit : XLIFF_TARGET ≠ XLIFF_TRANS_UNIT.
Proof. discriminate. Qed.

(** Writing the text of an element that is no unit changes nothing of
    what [iter] yields for the unit tag. *)
Lemma iter_set_text (e : Element) (t : option string) :
  ET.tag e ≠ XLIFF_TRANS_UNIT →
  ET.iter XLIFF_TRANS_UNIT (ET.set_text e t) = ET.iter XLIFF_TRANS_UNIT e.
Proof.
  intros Hne. destruct e as [tg a tx tl cs]. cbn in *.
  rewrite !decide_False by exact Hne. reflexivity.
Qed.

Lemma list_find_alter {A} (P : A → Prop) `{∀ x, Decision (P x)}
    (g : A → A) (l : list A) (i : nat) (x : A) :
  (∀ y, P (g y) ↔ P y) →
  list_find P l = Some (i, x) →
  list_find P (alter g i l) = Some (i, g x).
Proof.
  intros Hg. revert i. induction l as [|y l IH]; intros i; cbn; [discriminate|].
  destruct (decide (P y)) as [Hy|Hy].
  - intros [= <- <-]. cbn. rewrite decide_True by (by apply Hg). reflexivity.
  - destruct (list_find P l) as [[j z]|] eqn:E; cbn; [|discriminate].
    intros [= <- <-]. cbn. rewrite decide_False by exact Hy.
    rewrite (IH j eq_refl). reflexivity.
Qed.

Lemma list_find_snoc_new {A} (P : A → Prop) `{∀ x, Decision (P x)}
    (l : list A) (x : A) :
  list_find P l = None → P x →
  list_find P (l ++ [x]) = Some (length l, x).
Proof.
  intros Hl Hx. induction l as [|y l IH]; cbn in *.
  - rewrite decide_True by exact Hx. reflexivity.
  - destruct (decide (P y)); [discriminate|].
    destruct (list_find P l) as [[j z]|]; [discriminate|].
    rewrite IH by reflexivity. reflexivity.
Qed.

Lemma list_find_fmap_same {A} (P : A → Prop) `{∀ x, Decision (P x)}
    (f : A → A) (l : list A) :
  (∀ y, P (f y) ↔ P y) →
  list_find P (f <$> l) = prod_map id f <$> list_find P l.
Proof.
  intros Hf. induction l as [|y l IH]; cbn; [reflexivity|].
  destruct (decide (P y)) as [Hy|Hy].
  - rewrite decide_True by (by apply Hf). reflexivity.
  - rewrite decide_False by (by rewrite Hf). rewrite IH.
    destruct (list_find P l) as [[j z]|]; reflexivity.
Qed.

(** *** The loop body *)

Lemma tally_app translations l1 l2 :
  tally translations (l1 ++ l2)
    = add_counts (tally translations l1) (tally translations l2).
Proof.
  unfold tally, add_counts. cbn. rewrite !filter_app, !length_app.
  f_equal; lia.
Qed.

Lemma add_counts_assoc c d e :
  add_counts (add_counts c d) e = add_counts c (add_counts d e).
Proof. unfold add_counts. cbn. f_equal; lia. Qed.

Lemma add_counts_zero c : add_counts c (0, 0) = c.
Proof. destruct c. unfold add_counts. cbn. f_equal; lia. Qed.

Lemma is_merged_lookup translations tu :
  is_merged translations tu
    = match translations !! unit_id tu with
      | Some _ => true
      | None => false
      end.
Proof.
  unfold is_merged. destruct (translations !! unit_id tu).
  - apply bool_decide_eq_true. eauto.
  - apply bool_decide_eq_false. intros [? ?]; discriminate.
Qed.

Lemma merge_unit_counts translations tu counts :
  (merge_unit translations tu counts).2
    = add_counts counts (tally translations [tu]).
Proof.
  destruct counts as [m s].
  unfold tally, is_missing. rewrite !filter_cons, !filter_nil.
  rewrite is_merged_lookup.
  unfold merge_unit, add_counts, slot_text. fold (unit_id tu).
  destruct (translations !! unit_id tu) as [v|]; cbn.
  - destruct (ET.find_index tu XLIFF_TARGET); cbn;
      repeat case_decide; try tauto; cbn; f_equal; lia.
  - destruct (ET.find tu XLIFF_SOURCE) as [s0|]; cbn;
      [destruct (Py.truthy (stripped_text s0))|]; cbn;
      repeat case_decide; try tauto; cbn; f_equal; lia.
Qed.

(** The element the body leaves: only the children of the unit change,
    and only in one place. *)
Lemma merge_unit_shape translations tu counts :
  let tu' := (merge_unit translations tu counts).1 in
  ET.tag tu' = ET.tag tu ∧ ET.attrib tu' = ET.attrib tu
  ∧ ET.text tu' = ET.text tu ∧ ET.tail tu' = ET.tail tu
  ∧ ET.children tu'
      = match translations !! unit_id tu with
        | Some v =>
            match ET.find_index tu XLIFF_TARGET with
            | Some i =>
                alter (λ t, ET.set_text t (Some v)) i (ET.children tu)
            | None => ET.children tu ++ [new_target v]
            end
        | None => ET.children tu
        end.
Proof.
  destruct counts as [m s]. unfold merge_unit. fold (unit_id tu). cbv zeta.
  destruct (translations !! unit_id tu) as [v|].
  - destruct (ET.find_index tu XLIFF_TARGET) as [i|]; cbn.
    + repeat split; reflexivity.
    + repeat split; try reflexivity.
      rewrite alter_app_r_alt by reflexivity. rewrite Nat.sub_diag. reflexivity.
  - destruct (ET.find tu XLIFF_SOURCE) as [s0|];
      [destruct (Py.truthy (stripped_text s0))|]; repeat split; reflexivity.
Qed.

(** *** The merged tree *)

Section MergeFacts.
Context (translations : gmap string string).
Implicit Types (e tu : Element) (counts : Z * Z).

Lemma merge_tree_unfold e :
  merge_tree translations e
    = let e0 := ET.set_children e
                  (merge_tree translations <$> ET.children e) in
      if decide (ET.tag e = XLIFF_TRANS_UNIT)
      then (merge_unit translations e0 (0, 0)).1
      else e0.
Proof. destruct e; reflexivity. Qed.

Lemma Element_eq e1 e2 :
  ET.tag e1 = ET.tag e2 → ET.attrib e1 = ET.attrib e2 →
  ET.text e1 = ET.text e2 → ET.tail e1 = ET.tail e2 →
  ET.children e1 = ET.children e2 → e1 = e2.
Proof. destruct e1, e2; cbn; congruence. Qed.

Lemma merge_unit_counts_irrelevant tu counts counts' :
  (merge_unit translations tu counts).1
    = (merge_unit translations tu counts').1.
Proof.
  destruct (merge_unit_shape translations tu counts) as (?&?&?&?&?).
  destruct (merge_unit_shape translations tu counts') as (?&?&?&?&?).
  apply Element_eq; congruence.
Qed.

Lemma merge_tree_tag e : ET.tag (merge_tree translations e) = ET.tag e.
Proof.
  rewrite merge_tree_unfold. cbv zeta. case_decide; [|reflexivity].
  destruct (merge_unit_shape translations
              (ET.set_children e (merge_tree translations <$> ET.children e))
              (0, 0)) as (-> & _). reflexivity.
Qed.

Lemma merge_tree_attrib e :
  ET.attrib (merge_tree translations e) = ET.attrib e.
Proof.
  rewrite merge_tree_unfold. cbv zeta. case_decide; [|reflexivity].
  destruct (merge_unit_shape translations
              (ET.set_children e (merge_tree translations <$> ET.children e))
              (0, 0)) as (_ & -> & _). reflexivity.
Qed.

Lemma merge_tree_unit_id e : unit_id (merge_tree translations e) = unit_id e.
Proof. unfold unit_id, ET.get. rewrite merge_tree_attrib. reflexivity. Qed.

Lemma merge_tree_set_text e (t : option string) :
  ET.tag e ≠ XLIFF_TRANS_UNIT →
  merge_tree translations (ET.set_text e t)
    = ET.set_text (merge_tree translations e) t.
Proof.
  intros Hne. rewrite !merge_tree_unfold. cbv zeta.
  destruct e as [tg a tx tl cs]. cbn in *.
  rewrite !decide_False by exact Hne. reflexivity.
Qed.

Lemma merge_tree_new_target v :
  merge_tree translations (new_target v) = new_target v.
Proof. reflexivity. Qed.

(** An element with no unit in it is left as it is. *)
Lemma merge_tree_no_unit e :
  ET.iter XLIFF_TRANS_UNIT e = [] → merge_tree translations e = e.
Proof.
  induction e as [tg a tx tl cs IH] using Element_tree_ind. intros Hnil.
  rewrite merge_tree_unfold. cbn in *.
  destruct (decide (tg = XLIFF_TRANS_UNIT)); [discriminate Hnil|].
  cbn in Hnil. f_equal.
  induction IH as [|c cs Hc _ IHcs]; [reflexivity|].
  rewrite bind_cons in Hnil. apply app_eq_nil in Hnil as [H1 H2].
  cbn. rewrite Hc by exact H1. rewrite IHcs by exact H2. reflexivity.
Qed.

Lemma find_index_merged_children e :
  ET.find_index
    (ET.set_children e (merge_tree translations <$> ET.children e))
    XLIFF_TARGET
  = ET.find_index e XLIFF_TARGET.
Proof.
  unfold ET.find_index. cbn.
  rewrite (list_find_fmap_same (λ c, ET.tag c = XLIFF_TARGET)).
  - destruct (list_find _ (ET.children e)) as [[i t]|]; reflexivity.
  - intros y. rewrite merge_tree_tag. reflexivity.
Qed.

Lemma find_index_Some e (t : string) (i : nat) :
  ET.find_index e t = Some i →
  ∃ c, list_find (λ c, ET.tag c = t) (ET.children e) = Some (i, c)
     ∧ ET.children e !! i = Some c ∧ ET.tag c = t.
Proof.
  unfold ET.find_index.
  destruct (list_find _ (ET.children e)) as [[j c]|] eqn:E; [|discriminate].
  intros [= ->]. exists c. split; [reflexivity|].
  apply list_find_Some in E as (? & ? & _). by split.
Qed.

Lemma fmap_alter_at {A B} (f : A → B) (g : A → A) (h : B → B)
    (l : list A) (i : nat) :
  (∀ x, l !! i = Some x → f (g x) = h (f x)) →
  f <$> alter g i l = alter h i (f <$> l).
Proof.
  revert i. induction l as [|y l IH]; intros [|i] Hx; cbn; [done..| |].
  - rewrite (Hx y eq_refl). reflexivity.
  - f_equal. apply IH. intros x Hl. by apply Hx.
Qed.

Lemma bind_alter_same {A B} (h : A → list B) (g : A → A)
    (l : list A) (i : nat) :
  (∀ x, l !! i = Some x → h (g x) = h x) →
  alter g i l ≫= h = l ≫= h.
Proof.
  revert i. induction l as [|y l IH]; intros [|i] Hx; cbn; [done..| |].
  - rewrite (Hx y eq_refl). reflexivity.
  - f_equal. apply IH. intros x Hl. by apply Hx.
Qed.

Lemma elem_of_alter_cases {A} (g : A → A) (l : list A) (i : nat) (x : A) :
  x ∈ alter g i l → x ∈ l ∨ ∃ y, l !! i = Some y ∧ x = g y.
Proof.
  revert i. induction l as [|y l IH]; intros [|i]; cbn; intros Hx.
  - by left.
  - by left.
  - apply elem_of_cons in Hx as [-> | Hx]; [right; eauto|].
    left. by apply list_elem_of_further.
  - apply elem_of_cons in Hx as [-> | Hx]; [left; apply list_elem_of_here|].
    destruct (IH i Hx) as [H | (z & Hz & ->)]; [left | right; eauto].
    by apply list_elem_of_further.
Qed.

(** The writes of the body commute with the merge of the children: the
    body looks at the tags of the children alone, which the merge keeps,
    and the child it writes to is no unit. *)
Lemma merge_unit_commutes tu counts :
  let tu1 := (merge_unit translations tu counts).1 in
  ET.set_children tu1 (merge_tree translations <$> ET.children tu1)
  = (merge_unit translations
       (ET.set_children tu (merge_tree translations <$> ET.children tu))
       (0, 0)).1.
Proof.
  cbv zeta.
  destruct (merge_unit_shape translations tu counts)
    as (Htag & Hattr & Htext & Htail & Hcs).
  destruct (merge_unit_shape translations
              (ET.set_children tu (merge_tree translations <$> ET.children tu))
              (0, 0)) as (Htag' & Hattr' & Htext' & Htail' & Hcs').
  cbv zeta in *.
  cbn [ET.tag ET.attrib ET.text ET.tail ET.set_children] in Htag', Hattr',
    Htext', Htail'.
  apply Element_eq; cbn [ET.tag ET.attrib ET.text ET.tail ET.children
                          ET.set_children]; [congruence..|].
  rewrite Hcs, Hcs'.
  change (unit_id (ET.set_children tu _)) with (unit_id tu).
  rewrite find_index_merged_children. cbn [ET.children ET.set_children].
  destruct (translations !! unit_id tu) as [v|]; [|reflexivity].
  destruct (ET.find_index tu XLIFF_TARGET) as [i|] eqn:Ei.
  - apply fmap_alter_at. intros t Ht.
    apply find_index_Some in Ei as (c & _ & Hc & Hctag).
    assert (c = t) as -> by congruence.
    apply merge_tree_set_text. rewrite Hctag. apply target_is_no_unit.
  - rewrite fmap_app. reflexivity.
Qed.

(** The units below a unit are the same before and after the body. *)
Lemma iter_children_merge_unit tu counts :
  ET.children (merge_unit translations tu counts).1
    ≫= ET.iter XLIFF_TRANS_UNIT
  = ET.children tu ≫= ET.iter XLIFF_TRANS_UNIT.
Proof.
  destruct (merge_unit_shape translations tu counts) as (_ & _ & _ & _ & Hcs).
  cbv zeta in Hcs. rewrite Hcs.
  destruct (translations !! unit_id tu) as [v|]; [|reflexivity].
  destruct (ET.find_index tu XLIFF_TARGET) as [i|] eqn:Ei.
  - apply bind_alter_same. intros t Ht.
    apply find_index_Some in Ei as (c & _ & Hc & Hctag).
    assert (c = t) as -> by congruence.
    apply iter_set_text. rewrite Hctag. apply target_is_no_unit.
  - rewrite bind_app. cbn. rewrite !app_nil_r. reflexivity.
Qed.

(** A child the body leaves under a unit is as deep as a child the unit
    had, or the new target. *)
Lemma merge_unit_child tu counts (c : Element) :
  c ∈ ET.children (merge_unit translations tu counts).1 →
  (∃ c0, c0 ∈ ET.children tu ∧ ET.depth c = ET.depth c0)
  ∨ ∃ v, c = new_target v.
Proof.
  destruct (merge_unit_shape translations tu counts) as (_ & _ & _ & _ & Hcs).
  cbv zeta in Hcs. rewrite Hcs.
  destruct (translations !! unit_id tu) as [v|]; [|intros ?; left; eauto].
  destruct (ET.find_index tu XLIFF_TARGET) as [i|].
  - intros [Hc | (t & Ht & ->)]%elem_of_alter_cases; left.
    + eauto.
    + exists t. split; [by eapply list_elem_of_lookup_2|].
      apply depth_set_text.
  - intros [Hc | Hc]%elem_of_app; [left; eauto | right].
    apply list_elem_of_singleton in Hc. eauto.
Qed.

(** *** The walk *)

Lemma walk_children_all (F : Element → Z * Z → option (Element * (Z * Z)))
    (G : Element → Element) (cs : list Element) counts :
  Forall (λ c, ∀ counts,
            F c counts
              = Some (G c, add_counts counts
                             (tally translations
                                (ET.iter XLIFF_TRANS_UNIT c)))) cs →
  walk_children F cs counts
    = Some (G <$> cs,
            add_counts counts
              (tally translations (cs ≫= ET.iter XLIFF_TRANS_UNIT))).
Proof.
  intros Hcs. revert counts. induction Hcs as [|c cs Hc _ IH]; intros counts.
  - cbn. rewrite add_counts_zero. reflexivity.
  - cbn [walk_children]. rewrite Hc. cbn. rewrite IH. cbn.
    rewrite tally_app, add_counts_assoc. reflexivity.
Qed.

Lemma merge_walk_new_target (fuel : nat) v counts :
  merge_walk (S fuel) translations (new_target v) counts
    = Some (new_target v, counts).
Proof. reflexivity. Qed.

(** With fuel above the depth of the element the walk ends, on the merged
    tree and with the counters of the units of the element as it was. *)
Lemma merge_walk_tree (fuel : nat) e counts :
  (ET.depth e ≤ fuel)%nat →
  merge_walk (S fuel) translations e counts
    = Some (merge_tree translations e,
            add_counts counts
              (tally translations (ET.iter XLIFF_TRANS_UNIT e))).
Proof.
  revert e counts. induction fuel as [|fuel IH]; intros e counts Hd.
  { destruct e; cbn in Hd; lia. }
  assert (Hchildren : ∀ e1,
            (∀ c, c ∈ ET.children e1 →
               (∃ c0, c0 ∈ ET.children e ∧ ET.depth c = ET.depth c0)
               ∨ ∃ v, c = new_target v) →
            ∀ counts1,
              walk_children (merge_walk (S fuel) translations)
                (ET.children e1) counts1
              = Some (merge_tree translations <$> ET.children e1,
                      add_counts counts1
                        (tally translations
                           (ET.children e1 ≫= ET.iter XLIFF_TRANS_UNIT)))).
  { intros e1 He1 counts1. apply walk_children_all.
    apply Forall_forall. intros c Hc counts2.
    destruct (He1 c Hc) as [(c0 & Hc0 & Hdc) | (v & ->)].
    - apply IH. apply depth_child in Hc0. lia.
    - rewrite merge_walk_new_target, merge_tree_new_target.
      cbn. rewrite add_counts_zero. reflexivity. }
  change (merge_walk (S (S fuel)) translations e counts) with
    (let '(e1, counts1) :=
       if decide (ET.tag e = XLIFF_TRANS_UNIT)
       then merge_unit translations e counts
       else (e, counts) in
     '(cs, counts2) ← walk_children (merge_walk (S fuel) translations)
                         (ET.children e1) counts1;
     Some (ET.set_children e1 cs, counts2)).
  rewrite (merge_tree_unfold e). cbv zeta.
  destruct e as [tg a tx tl cs] eqn:Ee. rewrite <- Ee in *.
  assert (Hiter : ET.iter XLIFF_TRANS_UNIT e
                  = (if decide (ET.tag e = XLIFF_TRANS_UNIT) then [e] else [])
                    ++ (ET.children e ≫= ET.iter XLIFF_TRANS_UNIT))
    by (rewrite Ee; reflexivity).
  rewrite Hiter. clear Hiter.
  destruct (decide (ET.tag e = XLIFF_TRANS_UNIT)) as [Htu|Htu].
  - destruct (merge_unit translations e counts) as [e1 counts1] eqn:Eu.
    pose proof (merge_unit_counts translations e counts) as Hcounts.
    pose proof (iter_children_merge_unit e counts) as Hunits.
    pose proof (merge_unit_commutes e counts) as Hcomm.
    pose proof (merge_unit_child e counts) as Hch.
    rewrite Eu in Hcounts, Hunits, Hcomm, Hch. cbn [fst snd] in *.
    rewrite (Hchildren e1 Hch). cbn [mbind option_bind].
    rewrite Hcomm, Hunits, tally_app, <- add_counts_assoc, <- Hcounts.
    reflexivity.
  - rewrite (Hchildren e) by (intros c Hc; left; eauto).
    cbn [mbind option_bind app]. reflexivity.
Qed.

(** The units of the merged tree are the units of the tree, merged. *)
Lemma iter_merge_tree e :
  ET.iter XLIFF_TRANS_UNIT (merge_tree translations e)
    = merge_tree translations <$> ET.iter XLIFF_TRANS_UNIT e.
Proof.
  induction e as [tg a tx tl cs IH] using Element_tree_ind.
  set (e := ET.mkElement tg a tx tl cs).
  assert (Hcs : (merge_tree translations <$> cs) ≫= ET.iter XLIFF_TRANS_UNIT
                = merge_tree translations
                    <$> (cs ≫= ET.iter XLIFF_TRANS_UNIT)).
  { clear e. induction IH as [|c cs Hc _ IHcs]; [reflexivity|].
    rewrite fmap_cons, !bind_cons, fmap_app, Hc, IHcs. reflexivity. }
  assert (Hiter : ∀ x, ET.iter XLIFF_TRANS_UNIT x
                  = (if decide (ET.tag x = XLIFF_TRANS_UNIT) then [x] else [])
                    ++ (ET.children x ≫= ET.iter XLIFF_TRANS_UNIT))
    by (intros []; reflexivity).
  rewrite (Hiter (merge_tree translations e)), (Hiter e), merge_tree_tag.
  rewrite fmap_app. f_equal; [destruct (decide _); reflexivity|].
  rewrite merge_tree_unfold. cbv zeta. fold e.
  destruct (decide (ET.tag e = XLIFF_TRANS_UNIT)).
  - rewrite iter_children_merge_unit. exact Hcs.
  - exact Hcs.
Qed.

(** After the body, the first target child of a unit with a translation
    holds that translation. *)
Lemma merge_unit_target tu counts v :
  translations !! unit_id tu = Some v →
  ∃ t, ET.find (merge_unit translations tu counts).1 XLIFF_TARGET = Some t
     ∧ ET.text t = Some v.
Proof.
  intros Hv.
  destruct (merge_unit_shape translations tu counts) as (_ & _ & _ & _ & Hcs).
  cbv zeta in Hcs. rewrite Hv in Hcs. unfold ET.find. rewrite Hcs.
  destruct (ET.find_index tu XLIFF_TARGET) as [i|] eqn:Ei.
  - apply find_index_Some in Ei as (c & Hfind & _ & _).
    rewrite (list_find_alter (λ c, ET.tag c = XLIFF_TARGET)
               (λ t, ET.set_text t (Some v)) _ _ _
               (λ y, reflexivity _) Hfind).
    exists (ET.set_text c (Some v)). split; reflexivity.
  - unfold ET.find_index in Ei.
    destruct (list_find _ (ET.children tu)) as [[j c]|] eqn:E; [discriminate|].
    rewrite (list_find_snoc_new (λ c, ET.tag c = XLIFF_TARGET) _
               (new_target v) E eq_refl).
    exists (new_target v). split; reflexivity.
Qed.

End MergeFacts.

Lemma iter_tag (t : string) (e x : Element) :
  x ∈ ET.iter t e → ET.tag x = t.
Proof.
  revert x. induction e as [tg a tx tl cs IH] using Element_tree_ind.
  intros x. cbn. rewrite elem_of_app. intros [Hx | Hx].
  - destruct (decide (tg = t)) as [->|]; [|by apply elem_of_nil in Hx].
    apply list_elem_of_singleton in Hx as ->. reflexivity.
  - apply list_elem_of_bind in Hx as (c & Hx & Hc).
    rewrite Forall_forall in IH. by apply (IH c).
Qed.

Lemma alter_as_insert {A} (g : A → A) (l : list A) (i : nat) (x : A) :
  l !! i = Some x → alter g i l = <[i := g x]> l.
Proof.
  revert i. induction l as [|y l IH]; intros [|i]; cbn; try discriminate.
  - intros [= ->]. reflexivity.
  - intros Hx. f_equal. by apply IH.
Qed.

Lemma filter_split_length {A} (P Q : A → Prop)
    `{∀ x, Decision (P x)} `{∀ x, Decision (Q x)} (l : list A) :
  Forall (λ x, Q x ↔ ¬ P x) l →
  (length (filter P l) + length (filter Q l))%nat = length l.
Proof.
  induction 1 as [|x l Hx _ IH]; [reflexivity|].
  rewrite !filter_cons.
  destruct (decide (P x)), (decide (Q x)); cbn; try tauto; lia.
Qed.

Lemma filter_or_length {A} (P Q R : A → Prop)
    `{∀ x, Decision (P x)} `{∀ x, Decision (Q x)} `{∀ x, Decision (R x)}
    (l : list A) :
  (∀ x, R x ↔ P x ∨ Q x) → (∀ x, P x → Q x → False) →
  (length (filter P l) + length (filter Q l))%nat = length (filter R l).
Proof.
  intros HR Hdisj. induction l as [|x l IH]; [reflexivity|].
  rewrite !filter_cons. pose proof (HR x). pose proof (Hdisj x).
  destruct (decide (P x)), (decide (Q x)), (decide (R x)); cbn;
    try tauto; lia.
Qed.

(** C7. The loop of [merge_into_sdlxliff] goes through the namespaced
    unit elements, and through no other: it returns, as merged count, the
    number of namespaced unit elements whose id is a key of the map, and
    as missing count the number of namespaced unit elements whose id is
    not and whose stripped namespaced source is non-empty; the units
    counted are those with a known id or a non-empty source, so a unit
    with an absent id and an empty source adds to neither. In the tree it
    leaves, every namespaced unit whose id is a key has a namespaced
    target child whose text is the mapped value. When every namespaced
    unit has a non-empty source the two counts add up to their number:
    ten such units with seven ids supplied give 7 and 3. A document with
    no namespaced unit element, such as one of the second dialect, comes
    back as it was with both counts 0. *)
Theorem merge_into_sdlxliff_counts (root : Element)
    (translations : gmap string string) :
  ∃ root' merged_count missing_count,
    merge_into_sdlxliff root translations
      = Some (root', (merged_count, missing_count))
    ∧ let units := ET.iter XLIFF_TRANS_UNIT root in
      let known tu := is_Some (translations !! unit_id tu) in
      let missing tu :=
        translations !! unit_id tu = None ∧ slot_text XLIFF_SOURCE tu ≠ "" in
      merged_count = Z.of_nat (length (filter known units))
      ∧ missing_count = Z.of_nat (length (filter missing units))
      ∧ merged_count + missing_count
          = Z.of_nat (length (filter (λ tu, known tu
                                            ∨ slot_text XLIFF_SOURCE tu ≠ "")
                                units))
      ∧ unit_id <$> ET.iter XLIFF_TRANS_UNIT root' = unit_id <$> units
      ∧ (∀ tu' v,
           tu' ∈ ET.iter XLIFF_TRANS_UNIT root' →
           translations !! unit_id tu' = Some v →
           ∃ t, ET.find tu' XLIFF_TARGET = Some t ∧ ET.text t = Some v)
      ∧ (Forall (λ tu, slot_text XLIFF_SOURCE tu ≠ "") units →
           merged_count + missing_count = Z.of_nat (length units)
           ∧ (length units = 10%nat → length (filter known units) = 7%nat →
                merged_count = 7 ∧ missing_count = 3))
      ∧ (units = [] →
           root' = root ∧ merged_count = 0 ∧ missing_count = 0).
Proof.
  exists (merge_tree translations root).
  exists (tally translations (ET.iter XLIFF_TRANS_UNIT root)).1.
  exists (tally translations (ET.iter XLIFF_TRANS_UNIT root)).2.
  split.
  { unfold merge_into_sdlxliff. rewrite merge_walk_tree by reflexivity.
    unfold add_counts. cbn. reflexivity. }
  cbv zeta. set (units := ET.iter XLIFF_TRANS_UNIT root).
  assert (Hknown : filter (λ tu, is_merged translations tu) units
                   = filter (λ tu, is_Some (translations !! unit_id tu)) units).
  { apply list_filter_iff. intros tu. unfold is_merged.
    rewrite bool_decide_spec. reflexivity. }
  assert (Hmissing : filter (λ tu, is_missing translations tu) units
                     = filter (λ tu, translations !! unit_id tu = None
                                     ∧ slot_text XLIFF_SOURCE tu ≠ "") units).
  { apply list_filter_iff. intros tu. unfold is_missing.
    rewrite is_merged_lookup.
    destruct (translations !! unit_id tu), (slot_text XLIFF_SOURCE tu);
      cbn; intuition congruence. }
  unfold tally. cbn [fst snd]. rewrite Hknown, Hmissing.
  split; [reflexivity|]. split; [reflexivity|].
  split; [|split; [|split; [|split]]].
  - rewrite <- Nat2Z.inj_add. f_equal. apply filter_or_length.
    + intros tu. destruct (translations !! unit_id tu) as [v|].
      * split; intros _; left; eauto.
      * split; [intros [? | ?]; [by left | by right]|].
        intros [? | [_ ?]]; [by left | by right].
    + intros tu [v Hv] [Hnone _]. congruence.
  - rewrite iter_merge_tree, <- list_fmap_compose. apply list_fmap_ext.
    intros _ tu _. apply merge_tree_unit_id.
  - intros tu' v Htu' Hv. rewrite iter_merge_tree in Htu'.
    apply list_elem_of_fmap in Htu' as (tu & -> & Htu).
    apply iter_tag in Htu. rewrite merge_tree_unit_id in Hv.
    rewrite merge_tree_unfold. cbv zeta. rewrite decide_True by exact Htu.
    apply merge_unit_target. exact Hv.
  - intros Hsrc.
    assert (Hsum : (length (filter (λ tu, is_Some (translations !! unit_id tu))
                              units)
                    + length (filter (λ tu, translations !! unit_id tu = None
                                            ∧ slot_text XLIFF_SOURCE tu ≠ "")
                                units))%nat = length units).
    { apply filter_split_length. eapply Forall_impl; [exact Hsrc|].
      intros tu Hne. cbn. split.
      - intros [Hnone _]. by apply eq_None_not_Some.
      - intros Hnone%eq_None_not_Some. by split. }
    split; [lia|]. intros H10 H7. lia.
  - intros Hnil. split; [apply merge_tree_no_unit; exact Hnil|].
    rewrite Hnil. split; reflexivity.
Qed.

(** C7 as stated fails on the units of the second dialect. The two units
    of this document are unit elements for [extract_segments], which
    extracts both; the map has the id of the first; the merge visits
    neither, writes no target and returns 0 and 0, where the count over
    the unit elements of the document would be 1 merged and 1 missing. *)
Lemma merge_into_sdlxliff_skips_plain_units :
  extract_segments doc_plain_pair true
    = [mkSegment "1" "Hello"; mkSegment "2" "World"]
  ∧ unit_id <$> ET.iter PLAIN_TRANS_UNIT doc_plain_pair = ["1"; "2"]
  ∧ length (filter (λ tu, is_Some (({[ "1" := "un" ]} : gmap string string)
                                     !! unit_id tu))
              (ET.iter PLAIN_TRANS_UNIT doc_plain_pair)) = 1%nat
  ∧ length (filter (λ tu, ({[ "1" := "un" ]} : gmap string string)
                            !! unit_id tu = None
                          ∧ slot_text PLAIN_SOURCE tu ≠ "")
              (ET.iter PLAIN_TRANS_UNIT doc_plain_pair)) = 1%nat
  ∧ merge_into_sdlxliff doc_plain_pair {[ "1" := "un" ]}
    = Some (doc_plain_pair, (0, 0)).
Proof. vm_compute. repeat split. Qed.

(** C10. The merge writes the text of a unit's target element and
    nothing else of it. In the merged tree the children of a unit with a
    translation are the children it had, merged, in their places; when
    the unit had a target child, that child keeps its children and only
    gets the translation as its text; when it had none, a new target
    element holding the translation comes after the last child. An
    element with no unit below it is left as it was. *)
Theorem merge_into_sdlxliff_target_frame (root : Element)
    (translations : gmap string string) :
  ∃ counts,
    merge_into_sdlxliff root translations
      = Some (merge_tree translations root, counts)
    ∧ ET.iter XLIFF_TRANS_UNIT (merge_tree translations root)
        = merge_tree translations <$> ET.iter XLIFF_TRANS_UNIT root
    ∧ (∀ e, ET.iter XLIFF_TRANS_UNIT e = [] → merge_tree translations e = e)
    ∧ ∀ tu v,
        tu ∈ ET.iter XLIFF_TRANS_UNIT root →
        translations !! unit_id tu = Some v →
        let merged := merge_tree translations <$> ET.children tu in
        match ET.find_index tu XLIFF_TARGET with
        | Some i =>
            ∃ t, ET.children tu !! i = Some t
               ∧ ET.tag t = XLIFF_TARGET
               ∧ ET.children (merge_tree translations tu)
                   = <[i := ET.set_text (merge_tree translations t) (Some v)]>
                       merged
               ∧ ET.children (merge_tree translations t)
                   = merge_tree translations <$> ET.children t
        | None =>
            ET.children (merge_tree translations tu)
              = merged ++ [new_target v]
        end.
Proof.
  exists (tally translations (ET.iter XLIFF_TRANS_UNIT root)).
  split.
  { unfold merge_into_sdlxliff. rewrite merge_walk_tree by reflexivity.
    unfold add_counts. cbn. reflexivity. }
  split; [apply iter_merge_tree|]. split; [apply merge_tree_no_unit|].
  intros tu v Htu Hv. apply iter_tag in Htu. cbv zeta.
  rewrite (merge_tree_unfold _ tu). cbv zeta. rewrite decide_True by exact Htu.
  destruct (merge_unit_shape translations
              (ET.set_children tu (merge_tree translations <$> ET.children tu))
              (0, 0)) as (_ & _ & _ & _ & Hcs).
  cbv zeta in Hcs. rewrite Hcs. clear Hcs.
  change (unit_id (ET.set_children tu _)) with (unit_id tu). rewrite Hv.
  rewrite find_index_merged_children. cbn [ET.children ET.set_children].
  destruct (ET.find_index tu XLIFF_TARGET) as [i|] eqn:Ei; [|reflexivity].
  apply find_index_Some in Ei as (t & _ & Ht & Htag).
  exists t. split; [exact Ht|]. split; [exact Htag|]. split.
  - apply (alter_as_insert (λ c, ET.set_text c (Some v)) _ i
             (merge_tree translations t)).
    rewrite list_lookup_fmap, Ht. reflexivity.
  - rewrite merge_tree_unfold. cbv zeta.
    rewrite decide_False; [reflexivity|].
    rewrite Htag. apply target_is_no_unit.
Qed.

(** * Part IV: further properties *)

(** ** Partition: sizes and degenerate batch sizes *)

(** For a non-empty list and a batch size of at least 1, no batch is empty
    and no batch holds more than [batch_size] units. *)
Theorem split_into_batches_bounds {A} (segments : list A) (batch_size : Z) :
  segments ≠ [] → 1 ≤ batch_size →
  ∃ batches,
    split_into_batches segments batch_size = Ok batches
    ∧ Forall (λ b, 1 ≤ Z.of_nat (length b) ≤ batch_size) batches.
Proof.
  intros Hne Hbs.
  destruct (split_into_batches_cut segments batch_size Hne ltac:(lia))
    as (batches & Hrun & _ & Hlen).
  exists batches. split; [exact Hrun|]. cbv zeta in Hlen.
  set (total := Z.of_nat (length segments)) in *.
  assert (Htot : 1 ≤ total) by (destruct segments; [done | cbn in total; lia]).
  destruct (num_batches_ceil total batch_size Htot Hbs) as (Hn1 & Hceil).
  set (n := Z.max 1 (- (- total / batch_size))) in *.
  pose proof (Z.div_mod total n ltac:(lia)) as Hdm.
  pose proof (Z.mod_pos_bound total n ltac:(lia)) as Hm.
  assert (Hbase : 1 ≤ total / n) by (apply Z.div_le_lower_bound; nia).
  assert (Hsizes : Forall (λ z, 1 ≤ z ≤ batch_size)
                     ((λ b, Z.of_nat (length b)) <$> batches)).
  { rewrite Hlen. apply Forall_fmap, Forall_forall. intros i Hi. cbn.
    assert (0 ≤ i).
    { unfold Py.range in Hi. apply list_elem_of_fmap in Hi as (k & -> & _).
      lia. }
    unfold batch_size_at.
    set (base := total / n) in *. set (r := total mod n) in *.
    destruct (i <? r) eqn:E.
    - apply Z.ltb_lt in E. split; [lia|]. nia.
    - split; [lia|]. nia. }
  apply Forall_fmap in Hsizes. exact Hsizes.
Qed.

Lemma split_into_batches_bounds_witness :
  ∃ batches,
    split_into_batches ["a"; "b"; "c"; "d"; "e"] 2 = Ok batches
    ∧ Forall (λ b, 1 ≤ Z.of_nat (length b) ≤ 2) batches.
Proof.
  apply (split_into_batches_bounds ["a"; "b"; "c"; "d"; "e"] 2);
    [discriminate | lia].
Defined.

(** On a non-empty list, a batch size of 0 raises [ZeroDivisionError]; a
    negative batch size, like one that is at least the number of units,
    gives a single batch holding all the units. *)
Theorem split_into_batches_degenerate {A} (segments : list A) :
  segments ≠ [] →
  split_into_batches segments 0 = Err ZeroDivisionError
  ∧ ∀ batch_size,
      batch_size < 0 ∨ Z.of_nat (length segments) ≤ batch_size →
      split_into_batches segments batch_size = Ok [segments].
Proof.
  intros Hne.
  assert (Htot : 1 ≤ Z.of_nat (length segments))
    by (destruct segments; [done | cbn; lia]).
  split.
  - unfold split_into_batches.
    destruct (Z.of_nat (length segments) =? 0) eqn:E;
      [apply Z.eqb_eq in E; lia | reflexivity].
  - intros batch_size Hbs.
    destruct (split_into_batches_cut segments batch_size Hne ltac:(lia))
      as (batches & Hrun & Hcat & Hlen).
    rewrite Hrun. f_equal. cbv zeta in Hlen.
    set (total := Z.of_nat (length segments)) in *.
    assert (Hone : Z.max 1 (- (- total / batch_size)) = 1).
    { apply Z.max_l. destruct Hbs as [Hneg | Hbig].
      - assert (0 ≤ - total / batch_size); [|lia].
        rewrite <- (Z.opp_involutive batch_size), Z.div_opp_opp by lia.
        apply Z.div_pos; lia.
      - pose proof (Z.div_mod (- total) batch_size ltac:(lia)).
        pose proof (Z.mod_pos_bound (- total) batch_size ltac:(lia)). nia. }
    rewrite Hone in Hlen. apply (f_equal length) in Hlen.
    rewrite !length_fmap in Hlen.
    destruct batches as [|b [|b' batches]]; try discriminate Hlen.
    cbn in Hcat. rewrite app_nil_r in Hcat. by subst.
Qed.

Lemma split_into_batches_degenerate_witness :
  split_into_batches ["a"; "b"; "c"] 0 = Err ZeroDivisionError
  ∧ split_into_batches ["a"; "b"; "c"] (-4) = Ok [["a"; "b"; "c"]]
  ∧ split_into_batches ["a"; "b"; "c"] 3 = Ok [["a"; "b"; "c"]].
Proof.
  destruct (split_into_batches_degenerate ["a"; "b"; "c"]) as [H0 Hone];
    [discriminate|].
  split; [exact H0|]. split; apply Hone; cbn; lia.
Defined.

(** ** Merge: what it leaves alone, and merging again *)

Lemma alter_again {A} (g : A → A) (l : list A) (i : nat) :
  (∀ x, g (g x) = g x) → alter g i (alter g i l) = alter g i l.
Proof.
  intros Hg. revert i. induction l as [|y l IH]; intros [|i]; cbn;
    [done.. | |].
  - by rewrite Hg.
  - f_equal. apply IH.
Qed.

Section MergeMore.
Context (translations : gmap string string).
Implicit Types (e tu : Element) (counts : Z * Z).

Lemma merge_tree_text e : ET.text (merge_tree translations e) = ET.text e.
Proof.
  rewrite merge_tree_unfold. cbv zeta. case_decide; [|reflexivity].
  destruct (merge_unit_shape translations
              (ET.set_children e (merge_tree translations <$> ET.children e))
              (0, 0)) as (_ & _ & -> & _). reflexivity.
Qed.

Lemma merge_tree_tail e : ET.tail (merge_tree translations e) = ET.tail e.
Proof.
  rewrite merge_tree_unfold. cbv zeta. case_decide; [|reflexivity].
  destruct (merge_unit_shape translations
              (ET.set_children e (merge_tree translations <$> ET.children e))
              (0, 0)) as (_ & _ & _ & -> & _). reflexivity.
Qed.

Lemma iter_unfold (t : string) e :
  ET.iter t e
    = (if decide (ET.tag e = t) then [e] else [])
      ++ (ET.children e ≫= ET.iter t).
Proof. destruct e; reflexivity. Qed.

Lemma iter_set_text_other (t : string) e (x : option string) :
  ET.tag e ≠ t → ET.iter t (ET.set_text e x) = ET.iter t e.
Proof.
  intros Hne. rewrite !iter_unfold. destruct e as [tg a tx tl cs]. cbn in *.
  rewrite !decide_False by exact Hne. reflexivity.
Qed.

(** Below a unit, the elements of a tag other than the target tag are the
    same before and after the body. *)
Lemma iter_children_merge_unit_other (t : string) tu counts :
  t ≠ XLIFF_TARGET →
  ET.children (merge_unit translations tu counts).1 ≫= ET.iter t
  = ET.children tu ≫= ET.iter t.
Proof.
  intros Ht.
  destruct (merge_unit_shape translations tu counts) as (_ & _ & _ & _ & Hcs).
  cbv zeta in Hcs. rewrite Hcs.
  destruct (translations !! unit_id tu) as [v|]; [|reflexivity].
  destruct (ET.find_index tu XLIFF_TARGET) as [i|] eqn:Ei.
  - apply bind_alter_same. intros c Hc.
    apply find_index_Some in Ei as (c' & _ & Hc' & Hctag).
    assert (c' = c) as -> by congruence.
    apply iter_set_text_other. congruence.
  - rewrite bind_app. cbn. rewrite decide_False by congruence.
    cbn. rewrite !app_nil_r. reflexivity.
Qed.

Lemma iter_merge_tree_other (t : string) e :
  t ≠ XLIFF_TARGET →
  ET.iter t (merge_tree translations e)
    = merge_tree translations <$> ET.iter t e.
Proof.
  intros Ht. induction e as [tg a tx tl cs IH] using Element_tree_ind.
  set (e := ET.mkElement tg a tx tl cs).
  assert (Hcs : (merge_tree translations <$> cs) ≫= ET.iter t
                = merge_tree translations <$> (cs ≫= ET.iter t)).
  { clear e. induction IH as [|c cs Hc _ IHcs]; [reflexivity|].
    rewrite fmap_cons, !bind_cons, fmap_app, Hc, IHcs. reflexivity. }
  rewrite (iter_unfold t (merge_tree translations e)), (iter_unfold t e).
  rewrite merge_tree_tag, fmap_app.
  f_equal; [destruct (decide _); reflexivity|].
  rewrite merge_tree_unfold. cbv zeta. fold e.
  destruct (decide (ET.tag e = XLIFF_TRANS_UNIT)).
  - rewrite iter_children_merge_unit_other by exact Ht. exact Hcs.
  - exact Hcs.
Qed.

(** The body run on a unit it has already run on changes nothing more. *)
Lemma merge_unit_again tu counts counts' :
  (merge_unit translations (merge_unit translations tu counts).1 counts').1
  = (merge_unit translations tu counts).1.
Proof.
  set (r := (merge_unit translations tu counts).1).
  destruct (merge_unit_shape translations tu counts)
    as (Htag & Hattr & Htext & Htail & Hcs).
  destruct (merge_unit_shape translations r counts')
    as (Htag' & Hattr' & Htext' & Htail' & Hcs').
  cbv zeta in *. fold r in Htag, Hattr, Htext, Htail, Hcs.
  apply Element_eq; [congruence..|]. rewrite Hcs'.
  assert (Hid : unit_id r = unit_id tu)
    by (unfold unit_id, ET.get; rewrite Hattr; reflexivity).
  rewrite Hid. destruct (translations !! unit_id tu) as [v|]; [|reflexivity].
  unfold ET.find_index in *. rewrite Hcs.
  destruct (list_find _ (ET.children tu)) as [[i c]|] eqn:E; cbn [fmap option_fmap option_map fst].
  - rewrite (list_find_alter (λ c, ET.tag c = XLIFF_TARGET)
               (λ t, ET.set_text t (Some v)) _ _ _ (λ y, reflexivity _) E).
    cbn. apply alter_again. intros x. reflexivity.
  - rewrite (list_find_snoc_new (λ c, ET.tag c = XLIFF_TARGET) _
               (new_target v) E eq_refl).
    cbn. rewrite alter_app_r_alt by reflexivity. rewrite Nat.sub_diag.
    reflexivity.
Qed.

(** The merged tree is a fixed point of the merge. *)
Lemma merge_tree_again e :
  merge_tree translations (merge_tree translations e)
    = merge_tree translations e.
Proof.
  induction e as [tg a tx tl cs IH] using Element_tree_ind.
  set (e := ET.mkElement tg a tx tl cs).
  set (e0 := ET.set_children e (merge_tree translations <$> cs)).
  assert (Hcs : merge_tree translations <$> (merge_tree translations <$> cs)
                = merge_tree translations <$> cs).
  { clear e e0. induction IH as [|c cs Hc _ IHcs]; [reflexivity|].
    cbn. rewrite Hc. f_equal. exact IHcs. }
  assert (He0 : ET.set_children e0 (merge_tree translations <$> ET.children e0)
                = e0)
    by (unfold e0; cbn; rewrite Hcs; reflexivity).
  rewrite (merge_tree_unfold translations e). cbv zeta.
  change (ET.set_children e (merge_tree translations <$> ET.children e))
    with e0.
  destruct (decide (ET.tag e = XLIFF_TRANS_UNIT)) as [Htu|Htu].
  - rewrite (merge_tree_unfold translations
               (merge_unit translations e0 (0, 0)).1). cbv zeta.
    destruct (merge_unit_shape translations e0 (0, 0)) as (Htag & _).
    cbv zeta in Htag. rewrite decide_True by (rewrite Htag; exact Htu).
    rewrite (merge_unit_commutes translations e0 (0, 0)), He0.
    apply merge_unit_again.
  - rewrite (merge_tree_unfold translations e0). cbv zeta.
    rewrite decide_False by exact Htu. exact He0.
Qed.

(** With no unit id in the map the tree is left as it is. *)
Lemma merge_tree_no_known_unit e :
  Forall (λ tu, translations !! unit_id tu = None)
    (ET.iter XLIFF_TRANS_UNIT e) →
  merge_tree translations e = e.
Proof.
  induction e as [tg a tx tl cs IH] using Element_tree_ind.
  rewrite iter_unfold. cbn [ET.tag ET.children]. intros Hall.
  apply Forall_app in Hall as [Hself Hbelow].
  assert (Hcs : merge_tree translations <$> cs = cs).
  { clear Hself. induction IH as [|c cs Hc _ IHcs]; [reflexivity|].
    rewrite bind_cons in Hbelow. apply Forall_app in Hbelow as [H1 H2].
    cbn. rewrite Hc by exact H1. f_equal. by apply IHcs. }
  rewrite merge_tree_unfold. cbn [ET.tag ET.children]. cbv zeta. rewrite Hcs.
  destruct (decide (tg = XLIFF_TRANS_UNIT)) as [->|]; [|reflexivity].
  rewrite Forall_singleton in Hself.
  destruct (merge_unit_shape translations
              (ET.set_children (ET.mkElement XLIFF_TRANS_UNIT a tx tl cs) cs)
              (0, 0)) as (Htag & Hattr & Htext & Htail & Hch).
  cbv zeta in *. apply Element_eq; try assumption.
  rewrite Hch. change (unit_id (ET.set_children ?x _)) with (unit_id x).
  rewrite Hself. reflexivity.
Qed.

End MergeMore.

Lemma length_filter_fmap {A B} (P : B → Prop) `{∀ y, Decision (P y)}
    (f : A → B) (l : list A) :
  length (filter P (f <$> l)) = length (filter (λ x, P (f x)) l).
Proof.
  induction l as [|x l IH]; [reflexivity|].
  rewrite fmap_cons, !filter_cons. destruct (decide (P (f x))); cbn; lia.
Qed.

(** Merging the merged document again, with the same map, changes nothing:
    the second merge returns the tree it was given, and the same merged
    count. *)
Theorem merge_into_sdlxliff_twice (root : Element)
    (translations : gmap string string) :
  ∃ root' merged_count missing_count missing_count',
    merge_into_sdlxliff root translations
      = Some (root', (merged_count, missing_count))
    ∧ merge_into_sdlxliff root' translations
        = Some (root', (merged_count, missing_count')).
Proof.
  exists (merge_tree translations root).
  exists (tally translations (ET.iter XLIFF_TRANS_UNIT root)).1.
  exists (tally translations (ET.iter XLIFF_TRANS_UNIT root)).2.
  exists (tally translations
            (ET.iter XLIFF_TRANS_UNIT (merge_tree translations root))).2.
  unfold merge_into_sdlxliff. rewrite !merge_walk_tree by reflexivity.
  rewrite merge_tree_again. unfold add_counts. cbn [fst snd].
  split; [reflexivity|]. do 3 f_equal.
  rewrite iter_merge_tree. unfold tally. cbn [fst]. rewrite !Z.add_0_l.
  f_equal. rewrite length_filter_fmap. f_equal.
  apply list_filter_iff. intros tu. unfold is_merged.
  rewrite merge_tree_unit_id. reflexivity.
Qed.

(** When no namespaced unit of the document has its id in the map, the
    merge leaves the tree as it is, merges nothing, and counts as missing
    every namespaced unit whose stripped namespaced source is non-empty;
    units of the second dialect are not looked at. *)
Theorem merge_into_sdlxliff_no_known_unit (root : Element)
    (translations : gmap string string) :
  Forall (λ tu, translations !! unit_id tu = None)
    (ET.iter XLIFF_TRANS_UNIT root) →
  merge_into_sdlxliff root translations
    = Some (root,
            (0, Z.of_nat (length (filter
                                    (λ tu, slot_text XLIFF_SOURCE tu ≠ "")
                                    (ET.iter XLIFF_TRANS_UNIT root))))).
Proof.
  intros Hnone. unfold merge_into_sdlxliff.
  rewrite merge_walk_tree by reflexivity.
  rewrite merge_tree_no_known_unit by exact Hnone.
  unfold add_counts, tally. cbn [fst snd]. rewrite !Z.add_0_l.
  do 3 f_equal.
  - f_equal.
    induction Hnone as [|tu l Htu _ IH]; [reflexivity|].
    rewrite filter_cons, decide_False; [exact IH|].
    rewrite is_merged_lookup, Htu. cbn. tauto.
  - f_equal. f_equal.
    induction Hnone as [|tu l Htu _ IH]; [reflexivity|].
    rewrite !filter_cons, IH. unfold is_missing.
    rewrite is_merged_lookup, Htu.
    destruct (slot_text XLIFF_SOURCE tu) eqn:E; cbn.
    + rewrite !decide_False by tauto. reflexivity.
    + rewrite !decide_True by done. reflexivity.
Qed.

Lemma merge_into_sdlxliff_no_known_unit_witness :
  merge_into_sdlxliff doc_same_id {[ "9" := "neuf" ]}
    = Some (doc_same_id, (0, 2)).
Proof.
  apply (merge_into_sdlxliff_no_known_unit doc_same_id {[ "9" := "neuf" ]}).
  repeat constructor.
Defined.

(** The merge touches target elements only: for every tag other than the
    target tag, the merged tree has the same elements of that tag, in the
    same order and with the same attributes, text and tail. Sources and
    the units' ids are among what is kept. *)
Theorem merge_into_sdlxliff_keeps_other_elements (root : Element)
    (translations : gmap string string) :
  ∃ root' counts,
    merge_into_sdlxliff root translations = Some (root', counts)
    ∧ ∀ t, t ≠ XLIFF_TARGET →
        own_fields <$> ET.iter t root' = own_fields <$> ET.iter t root.
Proof.
  exists (merge_tree translations root).
  exists (tally translations (ET.iter XLIFF_TRANS_UNIT root)).
  split.
  { unfold merge_into_sdlxliff. rewrite merge_walk_tree by reflexivity.
    unfold add_counts. cbn. reflexivity. }
  intros t Ht. rewrite iter_merge_tree_other by exact Ht.
  rewrite <- list_fmap_compose. apply list_fmap_ext. intros _ e _.
  unfold own_fields. cbn.
  rewrite merge_tree_tag, merge_tree_attrib, merge_tree_text, merge_tree_tail.
  reflexivity.
Qed.

(** ** Stripped text *)

Lemma truthy_lstrip (s : string) : Py.truthy (Py.lstrip s) = has_ink s.
Proof.
  induction s as [|c s IH]; [reflexivity|].
  cbn. destruct (Py.isspace c); [exact IH | reflexivity].
Qed.

Lemma has_ink_lstrip (s : string) : has_ink (Py.lstrip s) = has_ink s.
Proof.
  induction s as [|c s IH]; [reflexivity|].
  cbn. destruct (Py.isspace c) eqn:E; [exact IH|].
  cbn. rewrite E. reflexivity.
Qed.

Lemma has_ink_rev_app (s1 s2 : string) :
  has_ink (String.rev_app s1 s2) = has_ink s1 || has_ink s2.
Proof.
  revert s2. induction s1 as [|c s1 IH]; intros s2; [reflexivity|].
  cbn. rewrite IH. cbn.
  destruct (Py.isspace c), (has_ink s1), (has_ink s2); reflexivity.
Qed.

Lemma has_ink_rev (s : string) : has_ink (String.rev s) = has_ink s.
Proof. unfold String.rev. rewrite has_ink_rev_app. apply orb_false_r. Qed.

Lemma truthy_rev_app (s1 s2 : string) :
  Py.truthy (String.rev_app s1 s2) = Py.truthy s1 || Py.truthy s2.
Proof.
  revert s2. induction s1 as [|c s1 IH]; intros s2; [reflexivity|].
  cbn. rewrite IH. cbn. apply orb_true_r.
Qed.

(** The stripped string is non-empty exactly when the string has a
    character that is not white space. *)
Lemma truthy_strip (s : string) : Py.truthy (Py.strip s) = has_ink s.
Proof.
  unfold Py.strip, Py.rstrip, String.rev at 1.
  rewrite truthy_rev_app, orb_false_r, truthy_lstrip, has_ink_rev.
  apply has_ink_lstrip.
Qed.

Lemma has_ink_app (s1 s2 : string) :
  has_ink (s1 +:+ s2) = has_ink s1 || has_ink s2.
Proof.
  induction s1 as [|c s1 IH]; [reflexivity|].
  change (String c s1 +:+ s2) with (String c (s1 +:+ s2)).
  cbn. rewrite IH. apply orb_assoc.
Qed.

Lemma has_ink_join (parts : list string) :
  has_ink (Py.join parts) = existsb has_ink parts.
Proof.
  unfold Py.join. induction parts as [|p parts IH]; [reflexivity|].
  destruct parts as [|q parts].
  - cbn. rewrite orb_false_r. reflexivity.
  - change (String.concat "" (p :: q :: parts))
      with (p +:+ "" +:+ String.concat "" (q :: parts)).
    rewrite !has_ink_app, IH. reflexivity.
Qed.

Lemma has_ink_truthy (s : string) : has_ink s = true → Py.truthy s = true.
Proof. destruct s; [discriminate | reflexivity]. Qed.

(** An element whose own text has a character that is not white space has
    a non-empty stripped text. *)
Lemma stripped_text_of_inked_text (e : Element) (v : string) :
  ET.text e = Some v → has_ink v = true →
  Py.truthy (stripped_text e) = true.
Proof.
  intros Htext Hink. unfold stripped_text.
  rewrite truthy_strip, has_ink_join.
  destruct e as [tg a tx tl cs]. cbn in Htext. subst tx. cbn.
  rewrite (has_ink_truthy v Hink). cbn. rewrite Hink. reflexivity.
Qed.

(** ** Merge, then extract what is left *)

(** After the merge, a namespaced unit whose id has a translation that is
    not blank is no longer extracted by the first loop in
    untranslated-only mode. *)
Theorem merged_units_are_not_extracted_again (root : Element)
    (translations : gmap string string) :
  ∃ root' counts,
    merge_into_sdlxliff root translations = Some (root', counts)
    ∧ Forall (λ tu',
                ∀ v, translations !! unit_id tu' = Some v →
                     Py.strip v ≠ "" →
                     primary_includes false tu' = false)
        (ET.iter XLIFF_TRANS_UNIT root')
    ∧ Forall (λ seg, ∀ v, translations !! seg_id seg = Some v →
                          Py.strip v = "")
        (primary_pass root' false).
Proof.
  exists (merge_tree translations root).
  exists (tally translations (ET.iter XLIFF_TRANS_UNIT root)).
  split.
  { unfold merge_into_sdlxliff. rewrite merge_walk_tree by reflexivity.
    unfold add_counts. cbn. reflexivity. }
  assert (Hunits : Forall (λ tu',
                     ∀ v, translations !! unit_id tu' = Some v →
                          Py.strip v ≠ "" →
                          primary_includes false tu' = false)
            (ET.iter XLIFF_TRANS_UNIT (merge_tree translations root))).
  { apply Forall_forall. intros tu' Htu' v Hv Hink.
    rewrite iter_merge_tree in Htu'.
    apply list_elem_of_fmap in Htu' as (tu & -> & Htu).
    apply iter_tag in Htu. rewrite merge_tree_unit_id in Hv.
    rewrite merge_tree_unfold. cbv zeta. rewrite decide_True by exact Htu.
    set (tu0 := ET.set_children tu _).
    destruct (merge_unit_target translations tu0 (0, 0) v Hv)
      as (t & Hfind & Htext).
    unfold primary_includes, slot_text. rewrite Hfind.
    destruct (ET.find _ XLIFF_SOURCE) as [s|]; [|reflexivity].
    rewrite (stripped_text_of_inked_text t v Htext).
    - cbn. apply andb_false_r.
    - rewrite <- truthy_strip. destruct (Py.strip v); [done | reflexivity]. }
  split; [exact Hunits|].
  rewrite primary_pass_eq. apply Forall_fmap, Forall_forall.
  intros tu' [Hinc Htu']%list_elem_of_filter v Hv. cbn in Hv.
  rewrite Forall_forall in Hunits. specialize (Hunits tu' Htu' v Hv).
  destruct (decide (Py.strip v = "")) as [|Hne]; [assumption|].
  rewrite (Hunits Hne) in Hinc. destruct Hinc.
Qed.

(** ** Loading: other files, and well-formed result files *)

Lemma result_files_same (dir1 dir2 : directory) :
  (∀ name, is_batch_file name = true →
     (is_Some (dir1 !! name) ↔ is_Some (dir2 !! name))) →
  result_files dir1 = result_files dir2.
Proof.
  intros Hsame.
  destruct (result_files_sorted dir1) as [Hs1 Hn1].
  destruct (result_files_sorted dir2) as [Hs2 Hn2].
  apply (StronglySorted_unique String.le); [assumption..|].
  apply NoDup_Permutation; [assumption..|].
  intros name. rewrite !elem_of_result_files.
  split; intros [Hb Hin]; (split; [exact Hb|]); by apply (Hsame name Hb).
Qed.

Lemma foldM_ext_in {A B} (f g : A → B → result A) (a : A) (l : list B) :
  (∀ a x, x ∈ l → f a x = g a x) → foldM f a l = foldM g a l.
Proof.
  revert a. induction l as [|x l IH]; intros a Hfg; [reflexivity|].
  cbn. rewrite (Hfg a x) by apply list_elem_of_here.
  destruct (g a x) as [a'|e]; cbn; [|reflexivity].
  apply IH. intros a0 y Hy. apply Hfg. by apply list_elem_of_further.
Qed.

Lemma load_all_translations_same (dir1 dir2 : directory) :
  (∀ name, is_batch_file name = true → dir1 !! name = dir2 !! name) →
  load_all_translations dir1 = load_all_translations dir2.
Proof.
  intros Hsame. unfold load_all_translations.
  rewrite (result_files_same dir1 dir2)
    by (intros name Hb; rewrite (Hsame name Hb); reflexivity).
  apply foldM_ext_in. intros tr name Hname.
  apply elem_of_result_files in Hname as [Hb _].
  rewrite (Hsame name Hb). reflexivity.
Qed.

(** Files whose names do not match [batch_*.json] play no part in the
    load: writing, replacing or removing one, whatever it holds, leaves
    the result as it was. *)
Theorem load_all_translations_ignores_other_files (dir : directory)
    (name : string) (f : file_content) :
  is_batch_file name = false →
  load_all_translations (<[name := f]> dir) = load_all_translations dir
  ∧ load_all_translations (delete name dir) = load_all_translations dir.
Proof.
  intros Hname. split; apply load_all_translations_same; intros name' Hb.
  - apply lookup_insert_ne. congruence.
  - apply lookup_delete_ne. congruence.
Qed.

Lemma load_all_translations_ignores_other_files_witness :
  load_all_translations (<["manifest.json" := Unparsable]> dir_overlap)
    = load_all_translations dir_overlap
  ∧ load_all_translations (delete "manifest.json" dir_overlap)
      = load_all_translations dir_overlap.
Proof.
  apply (load_all_translations_ignores_other_files dir_overlap
           "manifest.json" Unparsable).
  reflexivity.
Defined.

Lemma load_item_well_formed translations item :
  well_formed_item item = true →
  load_item translations item
    = Ok (write_all translations (option_list (item_record item))).
Proof.
  unfold well_formed_item, load_item, item_record.
  destruct item as [| | | s | items | members]; try discriminate. cbn.
  destruct (obj_lookup "id" members) as [i|]; cbn; [|reflexivity].
  destruct (obj_lookup "target" members) as [v|]; cbn; [|reflexivity].
  destruct (to_key i) as [k|e]; [reflexivity | discriminate].
Qed.

Lemma load_items_well_formed translations items :
  forallb well_formed_item items = true →
  foldM load_item translations items
    = Ok (write_all translations (omap item_record items)).
Proof.
  revert translations. induction items as [|item items IH]; intros tr Hwf.
  - reflexivity.
  - cbn in Hwf. apply andb_true_iff in Hwf as [Hitem Hitems].
    cbn. rewrite (load_item_well_formed tr item Hitem). cbn.
    rewrite IH by exact Hitems.
    destruct (item_record item) as [r|]; reflexivity.
Qed.

Lemma load_file_well_formed translations f :
  well_formed_file f = true →
  load_file translations f = Ok (write_all translations (file_records f)).
Proof.
  unfold well_formed_file, load_file, file_records, file_items.
  destruct f as [|[| | | | |members]]; try discriminate. cbn.
  destruct (obj_lookup "translations" members) as [ts|]; cbn; [|reflexivity].
  destruct ts as [| | | | items |]; try discriminate. cbn.
  apply load_items_well_formed.
Qed.

(** When every result file is in the expected shape the load raises
    nothing: a record that lacks an id or a target is dropped, and the
    others are written in order. *)
Theorem load_all_translations_well_formed (dir : directory) :
  (∀ name f, dir !! name = Some f → is_batch_file name = true →
             well_formed_file f = true) →
  load_all_translations dir = Ok (write_all ∅ (all_records dir)).
Proof.
  intros Hwf. unfold load_all_translations, all_records.
  assert (Hfiles : Forall (λ name, well_formed_file
                                     (default Unparsable (dir !! name)) = true)
                     (result_files dir)).
  { apply Forall_forall. intros name [Hb [f Hf]]%elem_of_result_files.
    rewrite Hf. cbn. by apply (Hwf name). }
  generalize (∅ : gmap pykey json).
  induction Hfiles as [|name names Hname _ IH]; intros tr; [reflexivity|].
  cbn. rewrite (load_file_well_formed tr _ Hname). cbn. rewrite IH.
  rewrite write_all_app. reflexivity.
Qed.

Lemma load_all_translations_well_formed_witness :
  load_all_translations dir_partial = Ok {[ KStr "1" := JStr "A" ]}.
Proof.
  rewrite (load_all_translations_well_formed dir_partial).
  - reflexivity.
  - intros name f Hf Hb.
    destruct (decide (name = "batch_001.json")) as [->|Hne].
    + vm_compute in Hf. injection Hf as <-. reflexivity.
    + destruct (decide (name = "manifest.json")) as [->|Hne'];
        [discriminate Hb|].
      unfold dir_partial in Hf.
      rewrite lookup_insert_ne, lookup_singleton_ne in Hf by congruence.
      discriminate Hf.
Defined.

(** ** Strings *)

Lemma string_app_assoc (s1 s2 s3 : string) :
  (s1 +:+ s2) +:+ s3 = s1 +:+ (s2 +:+ s3).
Proof.
  induction s1 as [|c s1 IH]; [reflexivity|].
  change (String c ((s1 +:+ s2) +:+ s3) = String c (s1 +:+ (s2 +:+ s3))).
  by rewrite IH.
Qed.

Lemma string_length_app (s1 s2 : string) :
  String.length (s1 +:+ s2) = (String.length s1 + String.length s2)%nat.
Proof.
  induction s1 as [|c s1 IH]; [reflexivity|].
  change (S (String.length (s1 +:+ s2))
          = S (String.length s1 + String.length s2)).
  by rewrite IH.
Qed.

Lemma string_app_inj_r (s1 s2 t : string) :
  s1 +:+ t = s2 +:+ t → s1 = s2.
Proof.
  revert s2. induction s1 as [|c s1 IH]; intros [|d s2] Heq.
  - reflexivity.
  - apply (f_equal String.length) in Heq.
    rewrite !string_length_app in Heq. cbn in Heq. lia.
  - apply (f_equal String.length) in Heq.
    rewrite !string_length_app in Heq. cbn in Heq. lia.
  - change (String c (s1 +:+ t) = String d (s2 +:+ t)) in Heq.
    injection Heq as -> Heq. f_equal. by apply IH.
Qed.

Lemma prefix_app (p s : string) : String.prefix p (p +:+ s) = true.
Proof.
  induction p as [|c p IH]; [by destruct s|].
  change (String.prefix (String c p) (String c (p +:+ s)) = true).
  cbn. destruct (ascii_dec c c); [exact IH | congruence].
Qed.

Lemma substring_all (s : string) : String.substring 0 (String.length s) s = s.
Proof. induction s as [|c s IH]; [reflexivity|]. cbn. by rewrite IH. Qed.

Lemma substring_skip (p s : string) :
  String.substring (String.length p)
    (String.length (p +:+ s) - String.length p) (p +:+ s) = s.
Proof.
  rewrite string_length_app.
  replace (String.length p + String.length s - String.length p)%nat
    with (String.length s) by lia.
  induction p as [|c p IH]; [apply substring_all|].
  change (String c p +:+ s) with (String c (p +:+ s)). exact IH.
Qed.

Lemma rev_app_app (s1 s2 acc : string) :
  String.rev_app (s1 +:+ s2) acc = String.rev_app s2 (String.rev_app s1 acc).
Proof.
  revert acc. induction s1 as [|c s1 IH]; intros acc; [reflexivity|].
  change (String c s1 +:+ s2) with (String c (s1 +:+ s2)). cbn. apply IH.
Qed.

Lemma rev_app_acc (s acc : string) :
  String.rev_app s acc = String.rev_app s "" +:+ acc.
Proof.
  revert acc. induction s as [|c s IH]; intros acc; [reflexivity|].
  cbn. rewrite (IH (String c acc)), (IH (String c "")), string_app_assoc.
  reflexivity.
Qed.

Lemma endswith_app (s t : string) : Py.endswith (s +:+ t) t = true.
Proof.
  unfold Py.endswith, String.rev.
  rewrite rev_app_app, (rev_app_acc t (String.rev_app s "")).
  apply prefix_app.
Qed.

(** ** Batch file names *)

Lemma pretty_N_go_head (x : N) (s : string) :
  (0 < x)%N →
  ∃ c s', pretty_N_go x s = String c s' ∧ c ≠ "0"%char.
Proof.
  revert s. induction (N.lt_wf_0 x) as [x _ IH]; intros s Hx.
  rewrite pretty_N_go_step by exact Hx.
  destruct (decide (x `div` 10 = 0)%N) as [Hq|Hq].
  - rewrite Hq, pretty_N_go_0. eexists _, _. split; [reflexivity|].
    assert (x < 10)%N.
    { pose proof (N.div_mod x 10 ltac:(lia)) as Hdm.
      pose proof (N.mod_lt x 10 ltac:(lia)). rewrite Hq in Hdm. lia. }
    rewrite N.mod_small by assumption.
    assert (x = 1 ∨ x = 2 ∨ x = 3 ∨ x = 4 ∨ x = 5 ∨ x = 6
            ∨ x = 7 ∨ x = 8 ∨ x = 9)%N as Hcases by lia.
    destruct Hcases as [->|[->|[->|[->|[->|[->|[->|[->| ->]]]]]]]];
      discriminate.
  - apply IH; [apply N.div_lt; lia | by apply N.neq_0_lt_0].
Qed.

Lemma pretty_nat_head (n : nat) :
  n ≠ 0%nat → ∃ c s', pretty n = String c s' ∧ c ≠ "0"%char.
Proof.
  intros Hn. unfold pretty, pretty_nat, pretty, pretty_N.
  rewrite decide_False by lia. apply pretty_N_go_head. lia.
Qed.

Lemma drop_zeros_head (c : ascii) (s : string) :
  c ≠ "0"%char → drop_zeros (String c s) = String c s.
Proof.
  intros Hc. destruct c as [[] [] [] [] [] [] [] []];
    first [reflexivity | congruence].
Qed.

Lemma drop_zeros_zeros (k : nat) (s : string) :
  drop_zeros (zeros k +:+ s) = drop_zeros s.
Proof.
  induction k as [|k IH]; [reflexivity|].
  change (zeros (S k) +:+ s) with (String "0" (zeros k +:+ s)). exact IH.
Qed.

Lemma drop_zeros_format (n : nat) :
  drop_zeros (format_03d n) = if decide (n = 0%nat) then "" else pretty n.
Proof.
  unfold format_03d. cbv zeta. rewrite drop_zeros_zeros.
  destruct (decide (n = 0%nat)) as [->|Hn]; [reflexivity|].
  destruct (pretty_nat_head n Hn) as (c & s' & -> & Hc).
  by apply drop_zeros_head.
Qed.

Lemma format_03d_inj (a b : nat) : format_03d a = format_03d b → a = b.
Proof.
  intros Heq. apply (f_equal drop_zeros) in Heq.
  rewrite !drop_zeros_format in Heq.
  destruct (decide (a = 0%nat)) as [->|Ha], (decide (b = 0%nat)) as [->|Hb].
  - reflexivity.
  - destruct (pretty_nat_head b Hb) as (c & s' & Hp & _). congruence.
  - destruct (pretty_nat_head a Ha) as (c & s' & Hp & _). congruence.
  - by apply (inj pretty).
Qed.

(** Two batches never share a file name. *)
Lemma batch_filename_inj (i j : nat) :
  batch_filename i = batch_filename j → i = j.
Proof.
  unfold batch_filename. intros Heq.
  apply (inj (String.app "batch_")) in Heq.
  apply string_app_inj_r, format_03d_inj in Heq. lia.
Qed.

Lemma batch_filename_matches (i : nat) : is_batch_file (batch_filename i) = true.
Proof.
  unfold is_batch_file, batch_filename, Py.startswith.
  rewrite prefix_app. cbn [andb].
  rewrite (substring_skip "batch_"). apply endswith_app.
Qed.

Lemma batch_filename_not_manifest (i : nat) :
  batch_filename i ≠ "manifest.json".
Proof.
  intros Heq. pose proof (batch_filename_matches i) as Hb.
  rewrite Heq in Hb. discriminate Hb.
Qed.

(** ** Saving the batches *)

Lemma py_sum_from (acc : Z) (l : list Z) :
  foldl Z.add acc l = acc + foldl Z.add 0 l.
Proof.
  revert acc. induction l as [|x l IH]; intros acc; cbn; [lia|].
  rewrite (IH (acc + x)), (IH (0 + x)). lia.
Qed.

Lemma py_sum_lengths {A} (batches : list (list A)) :
  py_sum ((λ b, Z.of_nat (length b)) <$> batches)
    = Z.of_nat (length (concat batches)).
Proof.
  unfold py_sum. induction batches as [|b batches IH]; [reflexivity|].
  cbn. rewrite py_sum_from, IH, length_app. lia.
Qed.

Lemma read_segments_json (batch : list Segment) :
  mapM read_segment (segment_json <$> batch) = Some batch.
Proof.
  induction batch as [|[i s] batch IH]; [reflexivity|].
  cbn. cbn in IH. rewrite IH. reflexivity.
Qed.

Lemma batch_file_segments_data (n i : nat) (batch : list Segment) :
  batch_file_segments (Some (Parsed (batch_data n i batch))) = Some batch.
Proof. apply read_segments_json. Qed.

(** The loop of [save_batches], started at batch [k]: the names appended,
    the files written, and the files left alone. *)
Lemma save_loop (n k : nat) (batches : list (list Segment))
    (dir : directory) (files : list string) :
  let st := foldl (save_step n) (dir, files)
              (zip (seq k (length batches)) batches) in
  st.2 = files ++ (batch_filename <$> seq k (length batches))
  ∧ (∀ i batch, batches !! i = Some batch →
       st.1 !! batch_filename (k + i)
         = Some (Parsed (batch_data n (k + i) batch)))
  ∧ (∀ name, name ∉ batch_filename <$> seq k (length batches) →
       st.1 !! name = dir !! name).
Proof.
  revert k dir files. induction batches as [|b batches IH];
    intros k dir files; cbv zeta.
  - cbn. rewrite app_nil_r. split; [reflexivity|].
    split; [intros i batch [=] | done].
  - cbn [length seq zip zip_with foldl save_step].
    destruct (IH (S k) (<[batch_filename k :=
                           Parsed (batch_data n k b)]> dir)
                (files ++ [batch_filename k])) as (Hfiles & Hwritten & Hkept).
    cbv zeta in *. split; [|split].
    + rewrite Hfiles, <- app_assoc. reflexivity.
    + intros [|i] batch Hb.
      * injection Hb as <-. rewrite Nat.add_0_r, Hkept.
        -- apply lookup_insert_eq.
        -- intros (j & Hj & Hin)%list_elem_of_fmap.
           apply batch_filename_inj in Hj. apply elem_of_seq in Hin. lia.
      * replace (k + S i)%nat with (S k + i)%nat by lia. by apply Hwritten.
    + intros name Hname. rewrite fmap_cons in Hname.
      apply not_elem_of_cons in Hname as [Hne Hrest].
      rewrite Hkept by exact Hrest. by apply lookup_insert_ne.
Qed.

Lemma save_batches_spec (batches : list (list Segment)) (dir : directory)
    (project_name : string) :
  let out := save_batches batches dir project_name in
  out.2 = mkManifest project_name (Z.of_nat (length (concat batches)))
            (Z.of_nat (length batches))
            (batch_filename <$> seq 0 (length batches))
  ∧ (∀ i batch, batches !! i = Some batch →
       out.1 !! batch_filename i
         = Some (Parsed (batch_data (length batches) i batch)))
  ∧ out.1 !! "manifest.json" = Some (Parsed (manifest_json out.2))
  ∧ (∀ name, name ≠ "manifest.json" →
       name ∉ batch_filename <$> seq 0 (length batches) →
       out.1 !! name = dir !! name).
Proof.
  cbv zeta. unfold save_batches, enumerate.
  destruct (save_loop (length batches) 0 batches dir [])
    as (Hfiles & Hwritten & Hkept). cbv zeta in *.
  destruct (foldl _ _ _) as [dir' files]. cbn [fst snd] in *.
  subst files. rewrite py_sum_lengths. cbn [app].
  split; [reflexivity|]. split; [|split].
  - intros i batch Hb. rewrite lookup_insert_ne
      by (intros Heq; by apply (batch_filename_not_manifest i)).
    by apply (Hwritten i).
  - apply lookup_insert_eq.
  - intros name Hne Hname. rewrite lookup_insert_ne by congruence.
    by apply Hkept.
Qed.

Lemma batch_filenames_NoDup (n : nat) : NoDup (batch_filename <$> seq 0 n).
Proof.
  apply NoDup_fmap_2_strong; [|apply NoDup_seq].
  intros i j _ _. apply batch_filename_inj.
Qed.

(** What [save_batches] leaves on disk and returns. The manifest gives the
    project name, the number of segments and of batches, and the file
    names [batch_001.json], ... in batch order, all different. Each batch
    is read back, from the file the manifest lists for it, as it was
    given; [manifest.json] holds the manifest; every other file of the
    directory is left as it was. *)
Theorem save_batches_files (batches : list (list Segment))
    (dir : directory) (project_name : string) :
  let out := save_batches batches dir project_name in
  project out.2 = project_name
  ∧ total_segments out.2 = Z.of_nat (length (concat batches))
  ∧ total_batches out.2 = Z.of_nat (length batches)
  ∧ batch_files out.2 = batch_filename <$> seq 0 (length batches)
  ∧ NoDup (batch_files out.2)
  ∧ (∀ i batch, batches !! i = Some batch →
       batch_files out.2 !! i = Some (batch_filename i)
       ∧ out.1 !! batch_filename i
           = Some (Parsed (batch_data (length batches) i batch))
       ∧ batch_file_segments (out.1 !! batch_filename i) = Some batch)
  ∧ out.1 !! "manifest.json" = Some (Parsed (manifest_json out.2))
  ∧ (∀ name, name ≠ "manifest.json" → name ∉ batch_files out.2 →
       out.1 !! name = dir !! name).
Proof.
  destruct (save_batches_spec batches dir project_name)
    as (Hm & Hwritten & Hmanifest & Hkept). cbv zeta in *.
  rewrite Hm in *. cbn [project total_segments total_batches batch_files].
  repeat split; try reflexivity.
  - apply batch_filenames_NoDup.
  - rewrite list_lookup_fmap, lookup_seq_lt; [reflexivity|].
    by eapply lookup_lt_Some.
  - by apply Hwritten.
  - rewrite (Hwritten i batch) by assumption. apply batch_file_segments_data.
  - exact Hmanifest.
  - exact Hkept.
Qed.

Lemma increasing_Sorted (names : list string) :
  increasing names = true → Sorted (strict String.le) names.
Proof.
  induction names as [|a names IH]; [constructor|].
  destruct names as [|b names]; [repeat constructor|].
  cbn [increasing]. intros [Hab Hrest]%andb_true_iff.
  apply bool_decide_eq_true in Hab.
  constructor; [by apply IH | by constructor].
Qed.

Lemma batch_filenames_increasing (n : nat) :
  (n ≤ 999)%nat →
  StronglySorted (strict String.le) (batch_filename <$> seq 0 n).
Proof.
  intros Hn.
  assert (Hall : StronglySorted (strict String.le)
                   (batch_filename <$> seq 0 999)).
  { apply Sorted_StronglySorted; [apply _|].
    apply increasing_Sorted. vm_compute. reflexivity. }
  replace 999%nat with (n + (999 - n))%nat in Hall by lia.
  rewrite seq_app, fmap_app in Hall.
  by apply StronglySorted_app_1_l in Hall.
Qed.

Lemma StronglySorted_weaken {A} (R S : relation A) (l : list A) :
  (∀ x y, R x y → S x y) → StronglySorted R l → StronglySorted S l.
Proof.
  intros HRS. induction 1 as [|x l _ IH Hx]; constructor; [exact IH|].
  eapply Forall_impl; [exact Hx|]. intros y. apply HRS.
Qed.

(** With at most 999 batches the file names come in strictly increasing
    order, so that listing the batch files of a directory that held none
    before, sorted by name, gives them in batch order. The thousandth
    name breaks the order: [batch_1000.json] sorts before
    [batch_999.json]. *)
Theorem batch_files_sort_in_batch_order (batches : list (list Segment))
    (dir : directory) (project_name : string) :
  (length batches ≤ 999)%nat →
  (∀ name, is_batch_file name = true → dir !! name = None) →
  let out := save_batches batches dir project_name in
  StronglySorted (strict String.le) (batch_files out.2)
  ∧ result_files out.1 = batch_files out.2
  ∧ strict String.le (batch_filename 999) (batch_filename 998).
Proof.
  intros Hlen Hfresh.
  destruct (save_batches_spec batches dir project_name)
    as (Hm & Hwritten & Hmanifest & Hkept). cbv zeta in *.
  rewrite Hm. cbn [batch_files].
  pose proof (batch_filenames_increasing (length batches) Hlen) as Hsorted.
  split; [exact Hsorted|]. split; [|by vm_compute].
  destruct (result_files_sorted (save_batches batches dir project_name).1)
    as [Hs Hn].
  apply (StronglySorted_unique String.le); [exact Hs | |].
  { eapply StronglySorted_weaken; [|exact Hsorted]. intros x y [Hxy _]. done. }
  apply NoDup_Permutation; [exact Hn | apply batch_filenames_NoDup|].
  intros name. rewrite elem_of_result_files. split.
  - intros [Hb Hin].
    destruct (decide (name ∈ batch_filename <$> seq 0 (length batches)))
      as [|Hout]; [assumption|].
    rewrite Hkept, (Hfresh name Hb) in Hin; [by destruct Hin | | exact Hout].
    intros ->. discriminate Hb.
  - intros (i & -> & Hi)%list_elem_of_fmap.
    split; [apply batch_filename_matches|].
    apply elem_of_seq in Hi.
    destruct (lookup_lt_is_Some_2 batches i ltac:(lia)) as [batch Hbatch].
    rewrite (Hwritten i batch Hbatch). eauto.
Qed.

Lemma batch_files_sort_in_batch_order_witness :
  result_files
    (save_batches [[mkSegment "1" "One"]; [mkSegment "2" "Two"]] ∅ "demo").1
  = ["batch_001.json"; "batch_002.json"].
Proof.
  destruct (batch_files_sort_in_batch_order
              [[mkSegment "1" "One"]; [mkSegment "2" "Two"]] ∅ "demo")
    as (_ & -> & _); [cbn; lia | intros; apply lookup_empty | reflexivity].
Defined.

(** ** The split tool, end to end *)

Lemma mapM_lookup_written (dir : directory) (batches : list (list Segment))
    (k : nat) :
  (∀ i batch, batches !! i = Some batch →
     batch_file_segments (dir !! batch_filename (k + i)) = Some batch) →
  mapM (λ name, batch_file_segments (dir !! name))
    (batch_filename <$> seq k (length batches)) = Some batches.
Proof.
  revert k. induction batches as [|b batches IH]; intros k Hread;
    [reflexivity|].
  cbn [length seq fmap list_fmap]. cbn.
  rewrite <- (Nat.add_0_r k) at 1. rewrite (Hread 0%nat b eq_refl). cbn.
  change (list_fmap _ _ batch_filename ?l) with (batch_filename <$> l).
  rewrite (IH (S k)); [reflexivity|].
  intros i batch Hb. replace (S k + i)%nat with (k + S i)%nat by lia.
  by apply (Hread (S i)).
Qed.

(** [main] of the split tool. It exits with code 1, writing nothing, when
    the input file does not exist or when nothing is extracted; on a
    batch size of 0 it raises [ZeroDivisionError]. With a batch size of at
    least 1 it ends normally: the manifest counts the extracted segments
    and [ceil(total / batch_size)] batches, and the segments of the files
    it lists, read in that order, are the extracted segments in order. *)
Theorem split_main_outcomes (root : Element) (dir : directory)
    (batch_size : Z) (project_name : string) (all : bool) :
  split_main None dir batch_size project_name all = Ok (SplitExit 1)
  ∧ (extract_segments root all = [] →
     split_main (Some root) dir batch_size project_name all
       = Ok (SplitExit 1))
  ∧ (extract_segments root all ≠ [] → batch_size = 0 →
     split_main (Some root) dir batch_size project_name all
       = Err ZeroDivisionError)
  ∧ (extract_segments root all ≠ [] → 1 ≤ batch_size →
     ∃ dir' manifest batches,
       split_main (Some root) dir batch_size project_name all
         = Ok (SplitDone dir' manifest)
       ∧ total_segments manifest
           = Z.of_nat (length (extract_segments root all))
       ∧ (total_batches manifest - 1) * batch_size
           < total_segments manifest ≤ total_batches manifest * batch_size
       ∧ Z.of_nat (length (batch_files manifest)) = total_batches manifest
       ∧ mapM (λ name, batch_file_segments (dir' !! name))
           (batch_files manifest) = Some batches
       ∧ concat batches = extract_segments root all).
Proof.
  split; [reflexivity|]. unfold split_main. split; [|split].
  - intros ->. reflexivity.
  - intros Hne ->. destruct (extract_segments root all) as [|seg segs];
      [done|]. reflexivity.
  - remember (extract_segments root all) as segments eqn:Esegments.
    intros Hne Hbs.
    destruct (split_into_batches_cut segments batch_size
                Hne ltac:(lia)) as (batches & Hrun & Hcat & Hlen).
    cbv zeta in Hlen.
    assert (Htot : 1 ≤ Z.of_nat (length segments))
      by (destruct segments; [done | cbn; lia]).
    destruct (num_batches_ceil _ batch_size Htot Hbs) as (Hn1 & Hceil).
    assert (Hcount : Z.of_nat (length batches)
                     = Z.max 1 (- (- Z.of_nat (length segments) / batch_size))).
    { apply (f_equal length) in Hlen.
      rewrite !length_fmap, length_range in Hlen. lia. }
    assert (Htruthy : negb (Py.truthy_list segments) = false)
      by (destruct segments; [done | reflexivity]).
    cbv zeta. rewrite Htruthy, Hrun. cbn [mbind result_bind].
    destruct (save_batches_spec batches dir project_name)
      as (Hm & Hwritten & _ & _). cbv zeta in *.
    destruct (save_batches batches dir project_name) as [dir' manifest].
    cbn [fst snd] in *. exists dir', manifest, batches.
    split; [reflexivity|]. subst manifest.
    cbn [total_segments total_batches batch_files].
    rewrite Hcat, Hcount, length_fmap, length_seq.
    split; [reflexivity|]. split; [exact Hceil|]. split; [lia|].
    split; [|reflexivity].
    apply mapM_lookup_written. intros i batch Hb. cbn.
    rewrite (Hwritten i batch Hb). apply batch_file_segments_data.
Qed.

Lemma split_main_outcomes_witness :
  ∃ dir' manifest,
    split_main (Some doc_three) ∅ 2 "demo" false
      = Ok (SplitDone dir' manifest)
    ∧ total_segments manifest = 3 ∧ total_batches manifest = 2.
Proof.
  destruct (split_main_outcomes doc_three ∅ 2 "demo" false)
    as (_ & _ & _ & Hdone).
  destruct Hdone as (dir' & manifest & batches & Hrun & Htotal & Hceil & _);
    [discriminate | lia |].
  exists dir', manifest. split; [exact Hrun|].
  change (extract_segments doc_three false)
    with [mkSegment "1" "One"; mkSegment "2" "Two"; mkSegment "3" "Three"]
    in Htotal.
  cbn in Htotal. split; [exact Htotal | lia].
Defined.

(** ** Parsing a reply *)

Lemma parse_translations_eq (content : string) (segments : list Segment) :
  parse_translations content segments
    = (λ seg, mkTranslation (seg_id seg) (seg_source seg)
                (default ""
                   (foldl (parse_step (Re.split content)) ∅
                      (range_step 1 (Z.of_nat (length (Re.split content))) 2)
                    !! seg_id seg)))
      <$> segments.
Proof.
  unfold parse_translations. cbv zeta.
  rewrite (foldl_append _ (λ seg, [mkTranslation (seg_id seg) (seg_source seg)
             (default "" (foldl (parse_step (Re.split content)) ∅
                (range_step 1 (Z.of_nat (length (Re.split content))) 2)
              !! seg_id seg))])) by reflexivity.
  cbn [app]. induction segments as [|seg segments IH]; [reflexivity|].
  rewrite bind_cons, IH. reflexivity.
Qed.

Lemma id_marker_other (c : ascii) (s : string) :
  c ≠ "["%char → Re.id_marker (String c s) = None.
Proof.
  intros Hc. destruct c as [[] [] [] [] [] [] [] []];
    first [reflexivity | congruence].
Qed.

Lemma lacks_cons (c d : ascii) (s : string) :
  lacks c (String d s) = true ↔ d ≠ c ∧ lacks c s = true.
Proof.
  cbn. rewrite andb_true_iff, negb_true_iff, bool_decide_eq_false. tauto.
Qed.

(** Text without an opening bracket holds no match: it goes to the
    current part. *)
Lemma split_go_text (t rest cur : string) :
  lacks "[" t = true →
  Re.split_go (t +:+ rest) 0 cur = Re.split_go rest 0 (cur +:+ t).
Proof.
  revert cur. induction t as [|c t IH]; intros cur Ht.
  - change ("" +:+ rest) with rest.
    replace (cur +:+ "") with cur; [reflexivity|].
    clear. induction cur as [|d cur IH]; [reflexivity|].
    change (String d cur = String d (cur +:+ "")). by rewrite <- IH.
  - apply lacks_cons in Ht as [Hc Ht].
    change (String c t +:+ rest) with (String c (t +:+ rest)).
    cbn [Re.split_go]. rewrite id_marker_other by exact Hc.
    rewrite IH by exact Ht. rewrite string_app_assoc. reflexivity.
Qed.

(** The characters of a match are passed over. *)
Lemma split_go_skip (x rest cur : string) :
  Re.split_go (x +:+ rest) (String.length x) cur = Re.split_go rest 0 cur.
Proof.
  induction x as [|c x IH].
  - change ("" +:+ rest) with rest. destruct rest; reflexivity.
  - change (String c x +:+ rest) with (String c (x +:+ rest)). exact IH.
Qed.

Lemma cut_at_app (c : ascii) (x after : string) :
  lacks c x = true → Re.cut_at c (x +:+ String c after) = Some (x, after).
Proof.
  induction x as [|d x IH]; intros Hx.
  - change ("" +:+ String c after) with (String c after). cbn.
    rewrite decide_True by reflexivity. reflexivity.
  - apply lacks_cons in Hx as [Hd Hx].
    change (String d x +:+ String c after)
      with (String d (x +:+ String c after)).
    cbn. rewrite decide_False by exact Hd. rewrite IH by exact Hx.
    reflexivity.
Qed.

(** A marker [[ID: id]] whose id has no closing bracket and is not blank
    is a match; its group is the id without its leading white space. *)
Lemma id_marker_entry (i after : string) :
  lacks "]" i = true → has_ink i = true →
  Re.id_marker ("[ID: " +:+ i +:+ String "]" after)
    = Some (Py.lstrip i, after).
Proof.
  intros Hlacks Hink.
  change ("[ID: " +:+ i +:+ String "]" after)
    with (String "[" (String "I" (String "D" (String ":"
            (String " " i +:+ String "]" after))))).
  cbn [Re.id_marker].
  rewrite (cut_at_app "]" (String " " i) after)
    by (apply lacks_cons; split; [discriminate | exact Hlacks]).
  unfold Re.group_of.
  change (Py.lstrip (String " " i)) with (Py.lstrip i).
  pose proof (truthy_lstrip i) as Ht. rewrite Hink in Ht.
  destruct (Py.lstrip i); [discriminate Ht | reflexivity].
Qed.

Lemma lacks_app (c : ascii) (s1 s2 : string) :
  lacks c (s1 +:+ s2) = lacks c s1 && lacks c s2.
Proof.
  induction s1 as [|d s1 IH]; [reflexivity|].
  change (String d s1 +:+ s2) with (String d (s1 +:+ s2)).
  cbn. rewrite IH. apply andb_assoc.
Qed.

Lemma lacks_reply_body (t : string) :
  lacks "[" t = true → lacks "[" (reply_body t) = true.
Proof.
  intros Ht. unfold reply_body.
  change (String "010" (t +:+ String "010" (String "010" "")))
    with (String "010" "" +:+ (t +:+ String "010" (String "010" ""))).
  rewrite !lacks_app, Ht. reflexivity.
Qed.

(** At a marker the current part ends, the id follows as a part of its
    own, and the scan resumes after the closing bracket. *)
Lemma split_go_marker (i after cur : string) :
  lacks "]" i = true → has_ink i = true →
  Re.split_go ("[ID: " +:+ i +:+ String "]" after) 0 cur
    = cur :: Py.lstrip i :: Re.split_go after 0 "".
Proof.
  intros Hi Hink.
  pose proof (id_marker_entry i after Hi Hink) as Hmark.
  assert (Hs : "[ID: " +:+ i +:+ String "]" after
               = String "[" (("ID: " +:+ i +:+ "]") +:+ after)).
  { change ("[ID: " +:+ i +:+ String "]" after)
      with (String "[" ("ID: " +:+ (i +:+ ("]" +:+ after)))).
    f_equal. by rewrite !string_app_assoc. }
  rewrite Hs in *. cbn [Re.split_go]. rewrite Hmark.
  f_equal. f_equal.
  replace (String.length (("ID: " +:+ i +:+ "]") +:+ after)
           - String.length after)%nat
    with (String.length ("ID: " +:+ i +:+ "]"))
    by (rewrite (string_length_app ("ID: " +:+ i +:+ "]") after); lia).
  apply split_go_skip.
Qed.

(** The parts of a well-formed reply: what precedes the first marker,
    then for each entry its id and the text that follows it. *)
Lemma split_reply_entries (entries : list (string * string)) (cur : string) :
  Forall (λ e, lacks "]" e.1 = true ∧ has_ink e.1 = true
               ∧ lacks "[" e.2 = true) entries →
  Re.split_go (reply_entries entries) 0 cur
    = cur :: (entries ≫= λ e, [Py.lstrip e.1; reply_body e.2]).
Proof.
  intros Hwf. revert cur.
  induction Hwf as [|[i t] entries (Hi & Hink & Ht) _ IH]; intros cur;
    [reflexivity|].
  cbn [fst snd] in *. cbn [reply_entries]. unfold reply_entry. cbn [fst snd].
  rewrite !string_app_assoc.
  change ("]" +:+ reply_body t +:+ reply_entries entries)
    with (String "]" (reply_body t +:+ reply_entries entries)).
  rewrite split_go_marker by assumption.
  rewrite split_go_text by (by apply lacks_reply_body).
  change ("" +:+ reply_body t) with (reply_body t).
  rewrite IH, bind_cons. reflexivity.
Qed.

Lemma lstrip_blank (w : string) : has_ink w = false → Py.lstrip w = "".
Proof.
  intros Hw. pose proof (truthy_lstrip w) as Ht. rewrite Hw in Ht.
  destruct (Py.lstrip w); [reflexivity | discriminate Ht].
Qed.

Lemma lstrip_blank_app (w s : string) :
  has_ink w = false → Py.lstrip (w +:+ s) = Py.lstrip s.
Proof.
  induction w as [|c w IH]; intros Hw; [reflexivity|].
  cbn in Hw. apply orb_false_iff in Hw as [Hc Hw].
  apply negb_false_iff in Hc.
  change (String c w +:+ s) with (String c (w +:+ s)).
  cbn. rewrite Hc. by apply IH.
Qed.

Lemma lstrip_ink_app (s x : string) :
  has_ink s = true → Py.lstrip (s +:+ x) = Py.lstrip s +:+ x.
Proof.
  induction s as [|c s IH]; intros Hs; [discriminate Hs|].
  change (String c s +:+ x) with (String c (s +:+ x)).
  cbn in *. destruct (Py.isspace c); [by apply IH | reflexivity].
Qed.

Lemma rev_app (s1 s2 : string) :
  String.rev (s1 +:+ s2) = String.rev s2 +:+ String.rev s1.
Proof. unfold String.rev. by rewrite rev_app_app, rev_app_acc. Qed.

Lemma rstrip_app_blank (s w : string) :
  has_ink w = false → Py.rstrip (s +:+ w) = Py.rstrip s.
Proof.
  intros Hw. unfold Py.rstrip.
  rewrite rev_app, lstrip_blank_app by (by rewrite has_ink_rev).
  reflexivity.
Qed.

(** White space around a string does not change what [strip] gives. *)
Lemma strip_blank_l (w s : string) :
  has_ink w = false → Py.strip (w +:+ s) = Py.strip s.
Proof. intros Hw. unfold Py.strip. by rewrite lstrip_blank_app. Qed.

Lemma strip_blank_r (s w : string) :
  has_ink w = false → Py.strip (s +:+ w) = Py.strip s.
Proof.
  intros Hw. unfold Py.strip. destruct (has_ink s) eqn:Hs.
  - rewrite lstrip_ink_app by exact Hs. by apply rstrip_app_blank.
  - rewrite lstrip_blank_app by exact Hs.
    rewrite (lstrip_blank w), (lstrip_blank s) by assumption. reflexivity.
Qed.

Lemma lstrip_lstrip (s : string) : Py.lstrip (Py.lstrip s) = Py.lstrip s.
Proof.
  induction s as [|c s IH]; [reflexivity|].
  cbn. destruct (Py.isspace c) eqn:E; [exact IH|]. cbn. by rewrite E.
Qed.

Lemma strip_lstrip (s : string) : Py.strip (Py.lstrip s) = Py.strip s.
Proof. unfold Py.strip. by rewrite lstrip_lstrip. Qed.

Lemma strip_reply_body (t : string) : Py.strip (reply_body t) = Py.strip t.
Proof.
  unfold reply_body.
  change (String "010" (t +:+ String "010" (String "010" "")))
    with (String "010" "" +:+ (t +:+ String "010" (String "010" ""))).
  rewrite strip_blank_l by reflexivity. by rewrite strip_blank_r.
Qed.

(** The loop over the odd indices of [first :: id1 :: text1 :: id2 :: ...]
    writes one entry per pair, in order. *)
Lemma parse_loop (pairs : list (string * string)) (pre : list string)
    (m : gmap string string) :
  foldl (parse_step (pre ++ (pairs ≫= λ p, [p.1; p.2]))) m
    ((λ k, Z.of_nat (length pre) + k * 2)
       <$> Py.range (Z.of_nat (length pairs)))
  = foldl (λ m p, <[Py.strip p.1 := Py.strip p.2]> m) m pairs.
Proof.
  revert pre m. induction pairs as [|[g b] pairs IH]; intros pre m;
    [reflexivity|].
  cbn [length]. unfold Py.range. rewrite Nat2Z.id.
  cbn [seq fmap list_fmap foldl]. rewrite <- fmap_S_seq.
  rewrite bind_cons. cbn [fst snd].
  specialize (IH (pre ++ [g; b])
    (<[Py.strip g := Py.strip b]> m)).
  rewrite <- (assoc_L (++)) in IH. cbn [app] in IH.
  unfold Py.range in IH. rewrite Nat2Z.id in IH.
  rewrite <- IH. clear IH.
  f_equal.
  - unfold parse_step, part. cbv zeta.
    change (Z.of_nat 0) with 0.
    replace (Z.to_nat (Z.of_nat (length pre) + 0 * 2))
      with (length pre + 0)%nat by lia.
    replace (Z.to_nat (Z.of_nat (length pre) + 0 * 2 + 1))
      with (length pre + 1)%nat by lia.
    rewrite (lookup_app_r pre _ (length pre + 0)) by lia.
    rewrite (lookup_app_r pre _ (length pre + 1)) by lia.
    replace (length pre + 0 - length pre)%nat with 0%nat by lia.
    replace (length pre + 1 - length pre)%nat with 1%nat by lia.
    cbn [lookup list_lookup app default from_option id].
    rewrite length_app. cbn [app length].
    case_match eqn:E; [reflexivity|]. apply Z.ltb_ge in E. lia.
  - rewrite <- !list_fmap_compose. apply list_fmap_ext.
    intros _ k _. cbn. rewrite length_app. cbn [length]. lia.
Qed.

Lemma string_app_nil_r (s : string) : s +:+ "" = s.
Proof.
  induction s as [|c s IH]; [reflexivity|].
  change (String c (s +:+ "") = String c s). by rewrite IH.
Qed.

Lemma rev_rev (s : string) : String.rev (String.rev s) = s.
Proof.
  induction s as [|c s IH]; [reflexivity|].
  change (String.rev (String c s)) with (String.rev_app s (String c "")).
  rewrite rev_app_acc.
  change (String.rev_app s "") with (String.rev s).
  rewrite rev_app, IH. reflexivity.
Qed.

Lemma left_stripped_lstrip (s : string) : left_stripped (Py.lstrip s) = true.
Proof.
  induction s as [|c s IH]; [reflexivity|].
  cbn. destruct (Py.isspace c) eqn:E; [exact IH|]. cbn. by rewrite E.
Qed.

Lemma lstrip_left_stripped (s : string) :
  left_stripped s = true → Py.lstrip s = s.
Proof.
  destruct s as [|c s]; [reflexivity|]. cbn. intros Hc.
  apply negb_true_iff in Hc. by rewrite Hc.
Qed.

Lemma left_stripped_rstrip (s : string) :
  left_stripped s = true → left_stripped (Py.rstrip s) = true.
Proof.
  destruct s as [|c s]; [reflexivity|]. cbn [left_stripped]. intros Hc.
  apply negb_true_iff in Hc. unfold Py.rstrip.
  change (String.rev (String c s)) with (String.rev_app s (String c "")).
  rewrite rev_app_acc. change (String.rev_app s "") with (String.rev s).
  destruct (has_ink (String.rev s)) eqn:Hs.
  - rewrite lstrip_ink_app by exact Hs. rewrite rev_app.
    change (String.rev (String c "")) with (String c "").
    change (left_stripped
              (String c ("" +:+ String.rev (Py.lstrip (String.rev s))))
            = true).
    cbn [left_stripped]. by rewrite Hc.
  - rewrite lstrip_blank_app by exact Hs. cbn [Py.lstrip]. rewrite Hc.
    change (String.rev (String c "")) with (String c "").
    cbn [left_stripped]. by rewrite Hc.
Qed.

(** [strip] gives a string it leaves as it is. *)
Lemma strip_strip (s : string) : Py.strip (Py.strip s) = Py.strip s.
Proof.
  unfold Py.strip.
  rewrite (lstrip_left_stripped (Py.rstrip (Py.lstrip s)))
    by apply left_stripped_rstrip, left_stripped_lstrip.
  unfold Py.rstrip. by rewrite rev_rev, lstrip_lstrip.
Qed.

Lemma parse_loop_stripped (parts : list string) (indices : list Z)
    (m : gmap string string) :
  map_Forall (λ _ v, Py.strip v = v) m →
  map_Forall (λ _ v, Py.strip v = v) (foldl (parse_step parts) m indices).
Proof.
  revert m. induction indices as [|i indices IH]; intros m Hm; [exact Hm|].
  cbn [foldl]. apply IH. unfold parse_step. cbv zeta.
  apply map_Forall_insert_2; [|exact Hm].
  case_match; [apply strip_strip | reflexivity].
Qed.

Lemma split_go_odd (s : string) (skip : nat) (cur : string) :
  ∃ n, length (Re.split_go s skip cur) = S (2 * n).
Proof.
  revert skip cur. induction s as [|c s IH]; intros skip cur.
  - by exists 0%nat.
  - cbn [Re.split_go]. destruct skip as [|k]; [|apply IH].
    destruct (Re.id_marker (String c s)) as [[group after]|]; [|apply IH].
    destruct (IH (String.length s - String.length after)%nat "") as [n Hn].
    exists (S n). cbn [length]. rewrite Hn. lia.
Qed.

Lemma range_step_odd (n : nat) :
  range_step 1 (Z.of_nat (S (2 * n))) 2
    = (λ k, 1 + k * 2) <$> Py.range (Z.of_nat n).
Proof.
  unfold range_step. f_equal. f_equal.
  symmetry. apply Z.div_unique_pos with (r := 1); lia.
Qed.

Lemma length_pairs_parts {A} (pairs : list (A * A)) :
  length (pairs ≫= λ p, [p.1; p.2]) = (2 * length pairs)%nat.
Proof.
  induction pairs as [|p pairs IH]; [reflexivity|].
  rewrite bind_cons, length_app, IH. cbn [length]. lia.
Qed.

(** The parts of a well-formed reply. *)
Lemma split_reply (preamble : string) (entries : list (string * string)) :
  lacks "[" preamble = true →
  Forall (λ e, lacks "]" e.1 = true ∧ has_ink e.1 = true
               ∧ lacks "[" e.2 = true) entries →
  Re.split (reply preamble entries)
    = [preamble] ++ ((λ e, (Py.lstrip e.1, reply_body e.2)) <$> entries)
                    ≫= λ p, [p.1; p.2].
Proof.
  intros Hpre Hwf.
  unfold Re.split, reply. rewrite split_go_text by exact Hpre.
  change ("" +:+ preamble) with preamble.
  rewrite split_reply_entries by exact Hwf. cbn [app]. f_equal.
  clear. induction entries as [|e entries IH]; [reflexivity|].
  rewrite fmap_cons, !bind_cons, IH. reflexivity.
Qed.

(** The map the first loop builds from a well-formed reply. *)
Lemma parse_loop_reply (preamble : string)
    (entries : list (string * string)) :
  lacks "[" preamble = true →
  Forall (λ e, lacks "]" e.1 = true ∧ has_ink e.1 = true
               ∧ lacks "[" e.2 = true) entries →
  foldl (parse_step (Re.split (reply preamble entries))) ∅
    (range_step 1 (Z.of_nat (length (Re.split (reply preamble entries)))) 2)
  = reply_map entries.
Proof.
  intros Hpre Hwf. rewrite (split_reply preamble entries Hpre Hwf).
  rewrite length_app, length_pairs_parts, length_fmap.
  change (length [preamble] + 2 * length entries)%nat
    with (S (2 * length entries)).
  rewrite range_step_odd.
  rewrite <- (length_fmap (λ e : string * string,
                (Py.lstrip e.1, reply_body e.2)) entries).
  rewrite (parse_loop _ [preamble] ∅). unfold reply_map.
  generalize (∅ : gmap string string).
  clear. induction entries as [|e entries IH]; intros m; [reflexivity|].
  rewrite fmap_cons. cbn [foldl fst snd].
  rewrite strip_lstrip, strip_reply_body. apply IH.
Qed.

(** A reply made of a text without opening bracket and of entries
    [[ID: id]], newline, translation, blank line, is read back as the map
    of its entries: each segment gets the stripped translation of the
    last entry whose stripped id is the segment's id, and the empty
    string when there is none. The ids must hold no closing bracket and
    not be blank, and the translations no opening bracket. *)
Theorem parse_translations_reply (preamble : string)
    (entries : list (string * string)) (segments : list Segment) :
  lacks "[" preamble = true →
  Forall (λ e, lacks "]" e.1 = true ∧ has_ink e.1 = true
               ∧ lacks "[" e.2 = true) entries →
  parse_translations (reply preamble entries) segments
    = (λ seg, mkTranslation (seg_id seg) (seg_source seg)
                (default "" (reply_map entries !! seg_id seg)))
      <$> segments.
Proof.
  intros Hpre Hwf. rewrite parse_translations_eq.
  apply list_fmap_ext. intros _ seg _.
  rewrite (parse_loop_reply preamble entries Hpre Hwf). reflexivity.
Qed.

Lemma parse_translations_reply_witness :
  parse_translations
    (reply "Sure: " [("1", "Hello"); (" 2 ", " World "); ("1", "Hi")])
    [mkSegment "2" "Welt"; mkSegment "1" "Hallo"; mkSegment "3" "x";
     mkSegment " 2 " "y"]
  = [mkTranslation "2" "Welt" "World"; mkTranslation "1" "Hallo" "Hi";
     mkTranslation "3" "x" ""; mkTranslation " 2 " "y" ""].
Proof.
  etrans.
  - apply (parse_translations_reply "Sure: "
             [("1", "Hello"); (" 2 ", " World "); ("1", "Hi")]).
    + reflexivity.
    + repeat constructor.
  - vm_compute. reflexivity.
Defined.

(** Whatever the reply, there is one record per segment, in the order of
    the segments, with the segment's id and source; every target is a
    stripped string, and when the reply holds no opening bracket every
    target is empty. *)
Theorem parse_translations_shape (content : string)
    (segments : list Segment) :
  tr_id <$> parse_translations content segments = seg_id <$> segments
  ∧ tr_source <$> parse_translations content segments
    = seg_source <$> segments
  ∧ Forall (λ t, Py.strip (tr_target t) = tr_target t)
      (parse_translations content segments)
  ∧ (lacks "[" content = true →
     Forall (λ t, tr_target t = "") (parse_translations content segments)).
Proof.
  rewrite parse_translations_eq.
  set (m := foldl _ _ _).
  repeat split.
  - rewrite <- list_fmap_compose. reflexivity.
  - rewrite <- list_fmap_compose. reflexivity.
  - apply Forall_fmap, Forall_forall. intros seg _. cbn.
    destruct (m !! seg_id seg) as [v|] eqn:E; [|reflexivity]. cbn.
    assert (Hm : map_Forall (λ _ v, Py.strip v = v) m)
      by (apply parse_loop_stripped, map_Forall_empty).
    exact (Hm _ _ E).
  - intros Hcontent. apply Forall_fmap, Forall_forall. intros seg _. cbn.
    subst m. unfold Re.split.
    replace (Re.split_go content 0 "") with [content]; [reflexivity|].
    rewrite <- (string_app_nil_r content) at 2.
    rewrite split_go_text by exact Hcontent. reflexivity.
Qed.

(** The loop over [range(1, len(parts), 2)] never takes the [else]
    branch of its conditional: the list of parts has odd length, so each
    index [i] of the loop has [i + 1 < len(parts)]. *)
Theorem parse_translations_pairs_complete (content : string) :
  Z.odd (Z.of_nat (length (Re.split content))) = true
  ∧ Forall (λ i, 1 ≤ i ∧ i + 1 < Z.of_nat (length (Re.split content))
                 ∧ Z.odd i = true)
       (range_step 1 (Z.of_nat (length (Re.split content))) 2).
Proof.
  destruct (split_go_odd content 0 "") as [n Hn].
  unfold Re.split. rewrite Hn. split.
  - rewrite Nat2Z.inj_succ, Z.odd_succ, Nat2Z.inj_mul, Z.even_mul.
    reflexivity.
  - rewrite range_step_odd. apply Forall_fmap, Forall_forall.
    intros k Hk. cbn.
    unfold Py.range in Hk. apply list_elem_of_fmap in Hk as (j & -> & Hj).
    apply elem_of_seq in Hj. rewrite Nat2Z.id in Hj.
    split; [lia|]. split; [lia|].
    replace (1 + Z.of_nat j * 2) with (1 + 2 * Z.of_nat j) by lia.
    rewrite Z.odd_add_mul_2. reflexivity.
Qed.

Lemma segments_text_from (segments : list Segment) (text : string) :
  foldl (λ text seg,
           text +:+ ("[ID: " +:+ seg_id seg +:+ "]"
                     +:+ String "010" (seg_source seg
                                       +:+ String "010" (String "010" ""))))
    text segments
  = text +:+ reply_entries
               ((λ seg, (seg_id seg, seg_source seg)) <$> segments).
Proof.
  revert text. induction segments as [|seg segments IH]; intros text.
  - cbn. by rewrite string_app_nil_r.
  - cbn [foldl]. rewrite IH, string_app_assoc. reflexivity.
Qed.

Lemma segments_text_entries (segments : list Segment) :
  segments_text segments
    = reply_entries ((λ seg, (seg_id seg, seg_source seg)) <$> segments).
Proof. apply segments_text_from. Qed.

Lemma foldl_insert_other {A} (f g : A → string) (l : list A)
    (m : gmap string string) (k : string) :
  k ∉ f <$> l → foldl (λ m x, <[f x := g x]> m) m l !! k = m !! k.
Proof.
  revert m. induction l as [|a l IH]; intros m Hk; [reflexivity|].
  rewrite fmap_cons, not_elem_of_cons in Hk. destruct Hk as [Hne Hk].
  cbn [foldl]. rewrite IH by exact Hk. by rewrite lookup_insert_ne.
Qed.

Lemma foldl_insert_NoDup {A} (f g : A → string) (l : list A)
    (m : gmap string string) (x : A) :
  NoDup (f <$> l) → x ∈ l →
  foldl (λ m x, <[f x := g x]> m) m l !! f x = Some (g x).
Proof.
  revert m. induction l as [|a l IH]; intros m Hnd Hx.
  - by apply elem_of_nil in Hx.
  - rewrite fmap_cons in Hnd. apply NoDup_cons in Hnd as [Ha Hnd].
    cbn [foldl]. apply elem_of_cons in Hx as [->|Hx].
    + rewrite foldl_insert_other by exact Ha. apply lookup_insert_eq.
    + by apply IH.
Qed.

(** A reply that repeats the listing of the prompt gives every segment
    its own source, stripped, as target: the format in which the prompt
    lists the segments is one the parser reads back. The ids must be
    distinct, stripped, not blank and without closing bracket, the
    sources without opening bracket, as the text before the listing. *)
Theorem parse_translations_echo (preamble : string)
    (segments : list Segment) :
  lacks "[" preamble = true →
  Forall (λ seg, lacks "]" (seg_id seg) = true
                 ∧ has_ink (seg_id seg) = true
                 ∧ Py.strip (seg_id seg) = seg_id seg
                 ∧ lacks "[" (seg_source seg) = true) segments →
  NoDup (seg_id <$> segments) →
  parse_translations (preamble +:+ segments_text segments) segments
    = (λ seg, mkTranslation (seg_id seg) (seg_source seg)
                (Py.strip (seg_source seg)))
      <$> segments.
Proof.
  intros Hpre Hwf Hnd. rewrite segments_text_entries.
  change (preamble +:+ reply_entries ?es) with (reply preamble es).
  rewrite parse_translations_eq, parse_loop_reply; [|exact Hpre|].
  2:{ apply Forall_fmap. eapply Forall_impl; [exact Hwf|].
      intros seg (? & ? & _ & ?). done. }
  apply list_fmap_ext. intros i seg Hseg. f_equal.
  apply list_elem_of_lookup_2 in Hseg.
  unfold reply_map. rewrite foldl_fmap. cbn [fst snd].
  assert (Hid : Py.strip (seg_id seg) = seg_id seg).
  { rewrite Forall_forall in Hwf. by destruct (Hwf seg Hseg) as (_&_&?&_). }
  rewrite <- Hid at 1.
  rewrite (foldl_insert_NoDup (λ seg, Py.strip (seg_id seg))
             (λ seg, Py.strip (seg_source seg)) segments ∅ seg);
    [reflexivity| |exact Hseg].
  replace ((λ seg, Py.strip (seg_id seg)) <$> segments)
    with (seg_id <$> segments); [exact Hnd|].
  apply list_fmap_ext. intros j seg' Hseg'.
  apply list_elem_of_lookup_2 in Hseg'. rewrite Forall_forall in Hwf.
  by destruct (Hwf seg' Hseg') as (_&_&->&_).
Qed.

Lemma parse_translations_echo_witness :
  parse_translations
    ("Translate: " +:+ segments_text
       [mkSegment "7" " Hello "; mkSegment "a-1" "World"])
    [mkSegment "7" " Hello "; mkSegment "a-1" "World"]
  = [mkTranslation "7" " Hello " "Hello";
     mkTranslation "a-1" "World" "World"].
Proof.
  etrans.
  - apply (parse_translations_echo "Translate: "
             [mkSegment "7" " Hello "; mkSegment "a-1" "World"]).
    + reflexivity.
    + repeat constructor.
    + cbn. apply NoDup_cons.
      split; [rewrite list_elem_of_singleton; discriminate|].
      apply NoDup_singleton.
  - vm_compute. reflexivity.
Defined.



